(** * gcli: the command catalog and the hook registry of [app.go]

    A shallow embedding of [App] (Go package [gcli], file [app.go]) and of
    the operations that register commands, aliases and hook handlers,
    together with the properties of the catalog that the specification
    states.

    Go strings are byte strings: they are modelled by [string], one [ascii]
    per byte.  Pointers to commands are locations in a heap, so that the same
    [*Command] stored in several maps is one shared object.  Code that ends
    the process ([exitWithErr]) or panics (a nil map, a nil pointer) is
    modelled by the outcome of a small state-and-error monad. *)

From Stdlib Require Import ZArith NArith Ascii String List Lia.
From stdpp Require Import base option strings list gmap fin_maps.

Local Open Scope string_scope.
Local Open Scope Z_scope.

(** ** Byte strings: the parts of Go's [strings] package the code uses *)

Module GoStrings.

(** [len(s)]: the number of bytes. *)
Definition len (s : string) : Z := Z.of_nat (String.length s).

Fixpoint HasPrefix (s sub : string) {struct sub} : bool :=
  match sub, s with
  | EmptyString, _ => true
  | String b sub', String a s' => Ascii.eqb a b && HasPrefix s' sub'
  | String _ _, EmptyString => false
  end.

(** [strings.Index(s, sub)]: the byte index of the first occurrence of
    [sub] in [s], and -1 when there is none.  [IndexFrom] carries the
    number of bytes already passed. *)
Fixpoint IndexFrom (i : Z) (s sub : string) : Z :=
  if HasPrefix s sub then i
  else match s with
       | EmptyString => -1
       | String _ s' => IndexFrom (i + 1) s' sub
       end.

Definition Index (s sub : string) : Z := IndexFrom 0 s sub.

(** [s[:i]] for [0 <= i <= len(s)]. *)
Fixpoint take (n : nat) (s : string) : string :=
  match n, s with
  | S n', String a s' => String a (take n' s')
  | _, _ => EmptyString
  end.

Definition slice_to (s : string) (i : Z) : string := take (Z.to_nat i) s.

Fixpoint rev_append (s acc : string) : string :=
  match s with
  | EmptyString => acc
  | String a s' => rev_append s' (String a acc)
  end.

Definition rev (s : string) : string := rev_append s EmptyString.

Definition byte (a : ascii) : N := N_of_ascii a.

(** White space as [unicode.IsSpace] has it, in UTF-8.  One byte:
    tab, line feed, vertical tab, form feed, carriage return, space. *)
Definition space1 (a : ascii) : bool :=
  let b := byte a in
  ((9 <=? b) && (b <=? 13) || (b =? 32))%N.

(** Two bytes: U+0085 (C2 85) and U+00A0 (C2 A0). *)
Definition space2 (a1 a2 : ascii) : bool :=
  ((byte a1 =? 194) && ((byte a2 =? 133) || (byte a2 =? 160)))%N.

(** Three bytes: U+1680 (E1 9A 80), U+2000..U+200A (E2 80 80..8A),
    U+2028, U+2029 (E2 80 A8, A9), U+202F (E2 80 AF), U+205F (E2 81 9F)
    and U+3000 (E3 80 80). *)
Definition space3 (a1 a2 a3 : ascii) : bool :=
  let b1 := byte a1 in
  let b2 := byte a2 in
  let b3 := byte a3 in
  ((b1 =? 225) && (b2 =? 154) && (b3 =? 128)
   || (b1 =? 226) && (b2 =? 128)
      && ((128 <=? b3) && (b3 <=? 138) || (b3 =? 168) || (b3 =? 169)
          || (b3 =? 175))
   || (b1 =? 226) && (b2 =? 129) && (b3 =? 159)
   || (b1 =? 227) && (b2 =? 128) && (b3 =? 128))%N.

(** Removal of the white space a string starts with.  [fwd] tells the
    direction the bytes are read in: [true] on the string itself,
    [false] on its reversal, where the bytes of a rune come last
    byte first. *)
Fixpoint trimLeading (fwd : bool) (s : string) : string :=
  match s with
  | EmptyString => EmptyString
  | String a1 s1 =>
      if space1 a1 then trimLeading fwd s1
      else
        match s1 with
        | EmptyString => s
        | String a2 s2 =>
            if (if fwd then space2 a1 a2 else space2 a2 a1)
            then trimLeading fwd s2
            else
              match s2 with
              | EmptyString => s
              | String a3 s3 =>
                  if (if fwd then space3 a1 a2 a3 else space3 a3 a2 a1)
                  then trimLeading fwd s3
                  else s
              end
        end
  end.

Definition TrimLeft (s : string) : string := trimLeading true s.

Definition TrimRight (s : string) : string :=
  rev (trimLeading false (rev s)).

(** [strings.TrimSpace(s)]: [s] without its leading and trailing white
    space. *)
Definition TrimSpace (s : string) : string := TrimRight (TrimLeft s).

Definition bytes (l : list Z) : string :=
  fold_right (fun n s => String (ascii_of_N (Z.to_N n)) s) EmptyString l.

End GoStrings.

Import GoStrings.


(** ** Constants *)

(** Verbosity levels ([uint], [iota] from 0). *)
Definition VerbQuiet : N := 0.
Definition VerbError : N := 1.
Definition VerbWarn : N := 2.
Definition VerbInfo : N := 3.
Definition VerbDebug : N := 4.
Definition VerbCrazy : N := 5.

(** Names of the hook events. *)
Definition EvtInit : string := "init".
Definition EvtBefore : string := "before".
Definition EvtAfter : string := "after".
Definition EvtError : string := "error".

Definition OK : Z := 0.
Definition ERR : Z := 2.
Definition HelpCommand : string := "help".

(** ** Data *)

(** A [*Command] is a location of the heap; no command is allocated at a
    location the heap does not hold, which stands for [nil]. *)
Abbreviation loc := positive.

(** [HookFunc]: a handler is a closure, opaque to the catalog; the model
    keeps its identity.  [defaultErrHandler] is the package's own handler
    for the [error] event. *)
Inductive HookFunc : Type :=
| defaultErrHandler
| hook (id : nat).

#[global] Instance HookFunc_eq_dec : EqDecision HookFunc.
Proof. solve_decision. Defined.

(** What the collaborators of the catalog are asked to do, in the order
    they are asked. *)
Inductive event : Type :=
| Logged (level : N) (msg : string)
    (* a message that [Logf] let through *)
| HelpVarsAdded (name version description logoText logoStyle : string)
    (* [app.AddVars(app.helpVars())] *)
| CommandInitialized (c : loc)
    (* [c.initialize()] *)
| Invoked (h : HookFunc) (data : option string).
    (* [h(app, data)] *)

#[global] Instance event_eq_dec : EqDecision event.
Proof. solve_decision. Defined.

Record Logo : Type := mkLogo {
  Text : string;
  Style : string
}.

(** The back-reference [c.app] of a command: [nil], or the application. *)
Inductive appRef : Type := nilApp | theApp.

Module Cmd.

(** Modelled from the spec: the declaration of [Command] is not in
    [app.go].  The record has the fields that [app.go] reads or writes
    ([Name], [Module], [Aliases] and the back-reference [app]) and the
    [Disabled] flag of the spec ("boolean flag; disabled entries are never
    stored in the catalog"), which [IsDisabled] reads.  [Module] is a
    keyword here, hence [Module_]. *)
Record Command : Type := mk {
  Name : string;
  Module_ : string;
  Aliases : list string;
  Disabled : bool;
  app : appRef
}.

Definition set_Name (v : string) (c : Command) : Command :=
  mk v (Module_ c) (Aliases c) (Disabled c) (app c).

Definition set_Module (v : string) (c : Command) : Command :=
  mk (Name c) v (Aliases c) (Disabled c) (app c).

Definition set_app (v : appRef) (c : Command) : Command :=
  mk (Name c) (Module_ c) (Aliases c) (Disabled c) v.

End Cmd.

Abbreviation Command := Cmd.Command.

(** [App].  The three maps that [app.go] writes are [None] while they are
    [nil]: Go reads a nil map as an empty one and panics on a write to it.
    [aliases] is only written by [AddAliases], and [hooks] (the embedded
    [SimpleHooks]) by [On] and [Add]; a nil map and an empty one are not
    told apart there.  The embedded [*CmdLine] and the variables of
    [HelpVars] belong to collaborators and are left out. *)
Record App : Type := mkApp {
  hooks : gmap string (list HookFunc);
  Name : string;
  Version : string;
  Description : string;
  Logo_ : Logo;
  Strict : bool;
  names : option (gmap string Z);
  errors : list string;
  aliases : gmap string string;
  commands : option (gmap string loc);
  moduleCommands : option (gmap string (gmap string loc));
  commandName : string;
  nameMaxLength : Z;
  defaultCommand : string;
  cleanArgs : list string
}.

Definition set_hooks (v : gmap string (list HookFunc)) (a : App) : App :=
  mkApp v (Name a) (Version a) (Description a) (Logo_ a) (Strict a)
    (names a) (errors a) (aliases a) (commands a) (moduleCommands a)
    (commandName a) (nameMaxLength a) (defaultCommand a) (cleanArgs a).

Definition set_Logo (v : Logo) (a : App) : App :=
  mkApp (hooks a) (Name a) (Version a) (Description a) v (Strict a)
    (names a) (errors a) (aliases a) (commands a) (moduleCommands a)
    (commandName a) (nameMaxLength a) (defaultCommand a) (cleanArgs a).

Definition set_names (v : option (gmap string Z)) (a : App) : App :=
  mkApp (hooks a) (Name a) (Version a) (Description a) (Logo_ a) (Strict a)
    v (errors a) (aliases a) (commands a) (moduleCommands a)
    (commandName a) (nameMaxLength a) (defaultCommand a) (cleanArgs a).

Definition set_errors (v : list string) (a : App) : App :=
  mkApp (hooks a) (Name a) (Version a) (Description a) (Logo_ a) (Strict a)
    (names a) v (aliases a) (commands a) (moduleCommands a)
    (commandName a) (nameMaxLength a) (defaultCommand a) (cleanArgs a).

Definition set_aliases (v : gmap string string) (a : App) : App :=
  mkApp (hooks a) (Name a) (Version a) (Description a) (Logo_ a) (Strict a)
    (names a) (errors a) v (commands a) (moduleCommands a)
    (commandName a) (nameMaxLength a) (defaultCommand a) (cleanArgs a).

Definition set_commands (v : option (gmap string loc)) (a : App) : App :=
  mkApp (hooks a) (Name a) (Version a) (Description a) (Logo_ a) (Strict a)
    (names a) (errors a) (aliases a) v (moduleCommands a)
    (commandName a) (nameMaxLength a) (defaultCommand a) (cleanArgs a).

Definition set_moduleCommands
    (v : option (gmap string (gmap string loc))) (a : App) : App :=
  mkApp (hooks a) (Name a) (Version a) (Description a) (Logo_ a) (Strict a)
    (names a) (errors a) (aliases a) (commands a) v
    (commandName a) (nameMaxLength a) (defaultCommand a) (cleanArgs a).

Definition set_nameMaxLength (v : Z) (a : App) : App :=
  mkApp (hooks a) (Name a) (Version a) (Description a) (Logo_ a) (Strict a)
    (names a) (errors a) (aliases a) (commands a) (moduleCommands a)
    (commandName a) v (defaultCommand a) (cleanArgs a).

Definition set_defaultCommand (v : string) (a : App) : App :=
  mkApp (hooks a) (Name a) (Version a) (Description a) (Logo_ a) (Strict a)
    (names a) (errors a) (aliases a) (commands a) (moduleCommands a)
    (commandName a) (nameMaxLength a) v (cleanArgs a).

(** The state of the program: the commands allocated so far, the
    application, the process-wide verbosity threshold, and what the
    collaborators were asked to do. *)
Record World : Type := mkWorld {
  heap : gmap loc Command;
  app : App;
  verbose : N;
  out : list event
}.

Definition with_heap (v : gmap loc Command) (w : World) : World :=
  mkWorld v (app w) (verbose w) (out w).

Definition with_app (v : App) (w : World) : World :=
  mkWorld (heap w) v (verbose w) (out w).

Definition with_verbose (v : N) (w : World) : World :=
  mkWorld (heap w) (app w) v (out w).

Definition with_out (v : list event) (w : World) : World :=
  mkWorld (heap w) (app w) (verbose w) v.

(** ** Effects *)

(** How a call ends: it returns, or the process exits with an error
    message ([exitWithErr]), or it panics.  Each carries the state
    reached. *)
Inductive outcome (A : Type) : Type :=
| Ok (a : A) (w : World)
| Fatal (msg : string) (w : World)
| Panic (msg : string) (w : World).

Arguments Ok {A} a w.
Arguments Fatal {A} msg w.
Arguments Panic {A} msg w.

Definition M (A : Type) : Type := World -> outcome A.

Definition ret {A : Type} (a : A) : M A := fun w => Ok a w.

Definition bind {A B : Type} (m : M A) (f : A -> M B) : M B :=
  fun w =>
    match m w with
    | Ok a w' => f a w'
    | Fatal msg w' => Fatal msg w'
    | Panic msg w' => Panic msg w'
    end.

Declare Scope go_scope.
Delimit Scope go_scope with go.

Notation "'let*' x ':=' m 'in' k" := (bind m (fun x => k))
  (at level 10, x name, m at level 100, k at level 200) : go_scope.

Notation "m ';;;' k" := (bind m (fun _ => k))
  (at level 100, k at level 200, right associativity) : go_scope.

(** The state a call leaves, however it ends. *)
Definition final {A : Type} (o : outcome A) : World :=
  match o with
  | Ok _ w | Fatal _ w | Panic _ w => w
  end.

Definition when (b : bool) (m : M unit) : M unit :=
  if b then m else ret tt.

(** [for _, x := range l { body(x) }] *)
Fixpoint for_range {A : Type} (l : list A) (body : A -> M unit) : M unit :=
  match l with
  | [] => ret tt
  | x :: l' => bind (body x) (fun _ => for_range l' body)
  end.

Definition getApp : M App := fun w => Ok (app w) w.

Definition modifyApp (f : App -> App) : M unit :=
  fun w => Ok tt (with_app (f (app w)) w).

Definition emit (e : event) : M unit :=
  fun w => Ok tt (with_out (out w ++ [e]) w).

(** [*c], for a read or a write through [c]: a nil pointer panics. *)
Definition deref (c : loc) : M Command :=
  fun w =>
    match heap w !! c with
    | Some x => Ok x w
    | None => Panic "invalid memory address or nil pointer dereference" w
    end.

Definition getField {A : Type} (f : Command -> A) (c : loc) : M A :=
  bind (deref c) (fun x => ret (f x)).

Definition setField (f : Command -> Command) (c : loc) : M unit :=
  bind (deref c) (fun x w => Ok tt (with_heap (<[c := f x]> (heap w)) w)).

(** [m[k] = v] on a map that may be nil. *)
Definition assign {V : Type} (m : option (gmap string V)) (k : string)
    (v : V) : M (gmap string V) :=
  match m with
  | Some m' => ret (<[k := v]> m')
  | None => fun w => Panic "assignment to entry in nil map" w
  end.

(** [_, ok := m[k]] on a map that may be nil. *)
Definition has_key {V : Type} (m : option (gmap string V)) (k : string)
    : bool :=
  match m with
  | Some m' => bool_decide (is_Some (m' !! k))
  | None => false
  end.

Local Open Scope go_scope.

(** ** Collaborators of [app.go] *)

(** Modelled from the spec: [Logf] is not in [app.go].  "[Logf(level,
    format, args...)] compares [level] against the current global
    threshold: if [level <= threshold], the message is formatted and
    emitted via the logging sink; otherwise the call is a silent no-op."
    The message is given already formatted. *)
Definition Logf (level : N) (msg : string) : M unit :=
  fun w => if (level <=? verbose w)%N then emit (Logged level msg) w
           else Ok tt w.

(** Modelled from the spec: the setters of the threshold are not in
    [app.go].  "[SetDebugMode()] sets it to the highest level ([Crazy]);
    [SetQuietMode()] sets it to [Quiet]; [SetVerbose(level)] sets it to an
    arbitrary level." *)
Definition setVerbosity (level : N) : M unit :=
  fun w => Ok tt (with_verbose level w).

(** Modelled from the spec: [exitWithErr] is not in [app.go].  "The
    process reports a descriptive message and terminates immediately." *)
Definition exitWithErr (msg : string) : M unit :=
  fun w => Fatal msg w.

(** Modelled from the spec: [Command.IsDisabled] is not in [app.go]; it
    reads the [Disabled] flag of the entry. *)
Definition IsDisabled (c : loc) : M bool := getField Cmd.Disabled c.

(** Modelled from the spec: [Command.initialize] is not in [app.go].  It
    is "the entry's own initialization routine (opaque to this core, an
    external collaborator hook)": the model records that it was called and
    leaves the catalog alone. *)
Definition initialize (c : loc) : M unit :=
  bind (deref c) (fun _ => emit (CommandInitialized c)).

(** Modelled from the spec: [App.AddAliases] is not in [app.go].  "For
    each alias string in [aliasList], sets [aliases[alias] =
    canonicalName], unconditionally overwriting any prior mapping for that
    alias string (last-writer-wins). [...] No error or log signal is
    produced for a collision." *)
Definition AddAliases (canonicalName : string) (aliasList : list string)
    : M unit :=
  for_range aliasList (fun alias =>
    modifyApp (fun a =>
      set_aliases (<[alias := canonicalName]> (aliases a)) a)).

(** The handlers registered for an event, in the order of registration. *)
Definition handlers (a : App) (name : string) : list HookFunc :=
  default [] (hooks a !! name).

(** Modelled from the spec: [SimpleHooks.On] is not in [app.go].  It
    "appends [handler] to the ordered list for [eventName]; creates the
    list if absent." *)
Definition SimpleHooks_On (name : string) (handler : HookFunc) : M unit :=
  modifyApp (fun a =>
    set_hooks (<[name := (handlers a name ++ [handler])%list]> (hooks a)) a).

(** Modelled from the spec: [SimpleHooks.Add] is not in [app.go]; the
    spec only says what [Initialize] obtains with it: "one default handler
    is pre-installed for the reserved [error] event during
    initialization".  It is taken to register the handler as [On] does. *)
Definition SimpleHooks_Add (name : string) (handler : HookFunc) : M unit :=
  SimpleHooks_On name handler.

(** Modelled from the spec: [SimpleHooks.Fire] is not in [app.go].  It
    "invokes every handler registered for [eventName], in registration
    order, exactly once each, passing [(sourceObject, payload)]. [...]
    Firing an event with no registered handlers is a no-op."  Handlers are
    opaque: the model records each call and its payload. *)
Definition SimpleHooks_Fire (event : string) (data : option string)
    : M unit :=
  let* a := getApp in
  for_range (handlers a event) (fun h => emit (Invoked h data)).

(** Modelled from the spec: [AddVars] and [helpVars] are not in
    [app.go].  "At initialization the catalog supplies a mapping of app
    metadata (name, version, description, logo text/style) consumed by
    that external component." *)
Definition AddVars_helpVars : M unit :=
  let* a := getApp in
  emit (HelpVarsAdded (Name a) (Version a) (Description a)
          (Text (Logo_ a)) (Style (Logo_ a))).

(** ** The operations of [app.go] *)

(** [fireEvent(event, data)] *)
Definition fireEvent (event : string) (data : option string) : M unit :=
  Logf VerbDebug ("[App.Fire] trigger the application event: " ++ event) ;;;
  SimpleHooks_Fire event data.

(** [Initialize()] *)
Definition Initialize : M unit :=
  modifyApp (set_names (Some ∅)) ;;;
  AddVars_helpVars ;;;
  SimpleHooks_Add EvtError defaultErrHandler ;;;
  fireEvent EvtInit None.

(** The [App] literal of [NewApp]: fields that are not listed have their
    zero value. *)
Definition newAppLiteral : App :=
  mkApp ∅ "My CLI App" "1.0.0" "" (mkLogo "" "info") false
    None [] ∅ (Some ∅) (Some ∅) "" 12 "" [].

(** [NewApp(fn...)]: the application of the world becomes the new one;
    only the first function given is called. *)
Definition NewApp (fn : list (M unit)) : M unit :=
  modifyApp (fun _ => newAppLiteral) ;;;
  match fn with
  | f :: _ => f
  | [] => ret tt
  end ;;;
  Initialize.

(** [Config(fn)], with [None] for a nil function. *)
Definition Config (fn : option (M unit)) : M unit :=
  match fn with
  | Some f => f
  | None => ret tt
  end.

(** [SetLogo(logo, style...)] *)
Definition SetLogo (logo : string) (style : list string) : M unit :=
  modifyApp (fun a => set_Logo (mkLogo logo (Style (Logo_ a))) a) ;;;
  match style with
  | s :: _ => modifyApp (fun a => set_Logo (mkLogo (Text (Logo_ a)) s) a)
  | [] => ret tt
  end.

Definition SetDebugMode : M unit := setVerbosity VerbCrazy.
Definition SetQuietMode : M unit := setVerbosity VerbQuiet.
Definition SetVerbose (level : N) : M unit := setVerbosity level.

(** [DefaultCommand(name)] *)
Definition DefaultCommand (name : string) : M unit :=
  modifyApp (set_defaultCommand name).

(** [app.moduleCommands[k1][k2] = v]: the bucket is read from the outer
    map, and a missing bucket is a nil map. *)
Definition assign_in {V : Type}
    (m : option (gmap string (gmap string V))) (k1 k2 : string) (v : V)
    : M (gmap string (gmap string V)) :=
  match m with
  | Some m' =>
      match m' !! k1 with
      | Some bucket => ret (<[k1 := <[k2 := v]> bucket]> m')
      | None => fun w => Panic "assignment to entry in nil map" w
      end
  | None => fun w => Panic "assignment to entry in nil map" w
  end.

(** [AddCommand(c)] *)
Definition AddCommand (c : loc) : M loc :=
  let* name := getField Cmd.Name c in
  setField (Cmd.set_Name (TrimSpace name)) c ;;;
  let* name := getField Cmd.Name c in
  when (String.eqb name "")
    (exitWithErr "The added command name can not be empty.") ;;;
  let* disabled := IsDisabled c in
  if disabled then
    let* name := getField Cmd.Name c in
    Logf VerbDebug ("command " ++ name ++ " has been disabled, skip add") ;;;
    ret c
  else
    let* name := getField Cmd.Name c in
    let i := Index name ":" in
    when (i =? 0)
      (exitWithErr "The added command module can not be empty.") ;;;
    (if i >? -1
     then let* name := getField Cmd.Name c in
          setField (Cmd.set_Module (slice_to name i)) c
     else setField (Cmd.set_Module "") c) ;;;
    let* name := getField Cmd.Name c in
    let nameLen := len name in
    (* add command to app *)
    let* a := getApp in
    let* name := getField Cmd.Name c in
    let* ns := assign (names a) name nameLen in
    modifyApp (set_names (Some ns)) ;;;
    let* a := getApp in
    let* name := getField Cmd.Name c in
    let* cs := assign (commands a) name c in
    modifyApp (set_commands (Some cs)) ;;;
    (* record command name max length *)
    let* a := getApp in
    when (nameLen >? nameMaxLength a)
      (modifyApp (set_nameMaxLength nameLen)) ;;;
    let* a := getApp in
    let* module := getField Cmd.Module_ c in
    when (negb (has_key (moduleCommands a) module))
      (let* a := getApp in
       let* module := getField Cmd.Module_ c in
       let* ms := assign (moduleCommands a) module ∅ in
       modifyApp (set_moduleCommands (Some ms))) ;;;
    let* a := getApp in
    let* module := getField Cmd.Module_ c in
    let* name := getField Cmd.Name c in
    let* ms := assign_in (moduleCommands a) module name c in
    modifyApp (set_moduleCommands (Some ms)) ;;;
    (* add aliases for the command *)
    let* name := getField Cmd.Name c in
    let* als := getField Cmd.Aliases c in
    AddAliases name als ;;;
    let* name := getField Cmd.Name c in
    Logf VerbDebug ("[App.AddCommand] add a new CLI command: " ++ name) ;;;
    (* init command *)
    setField (Cmd.set_app theApp) c ;;;
    initialize c ;;;
    ret c.

(** [Add(c, more...)] *)
Definition Add (c : loc) (more : list loc) : M unit :=
  AddCommand c ;;;
  match more with
  | [] => ret tt
  | _ => for_range more (fun cmd => AddCommand cmd ;;; ret tt)
  end.

(** [On(name, handler)] *)
Definition On (name : string) (handler : HookFunc) : M unit :=
  Logf VerbDebug ("[App.On] add application hook: " ++ name) ;;;
  SimpleHooks_On name handler.

(** [AddError(err)] *)
Definition AddError (err : string) : M unit :=
  modifyApp (fun a => set_errors (errors a ++ [err]) a).

(** [Names()], [Commands()] and [CleanArgs()] return the maps and the list
    the application holds, not copies.  A nil map reads as an empty one. *)
Definition Names (w : World) : gmap string Z := default ∅ (names (app w)).

Definition Commands (w : World) : gmap string loc :=
  default ∅ (commands (app w)).

Definition CleanArgs (w : World) : list string := cleanArgs (app w).

(** The buckets of [moduleCommands], read the same way. *)
Definition ModuleCommands (w : World) : gmap string (gmap string loc) :=
  default ∅ (moduleCommands (app w)).

(** Any sequence of calls of the catalog: the operations of [app.go] that
    act on an application, apart from [Config] and [NewApp], which run a
    function of the caller's. *)
Inductive catalog_op : Type :=
| OpInitialize
| OpSetLogo (logo : string) (style : list string)
| OpSetDebugMode
| OpSetQuietMode
| OpSetVerbose (level : N)
| OpDefaultCommand (name : string)
| OpAdd (c : loc) (more : list loc)
| OpAddCommand (c : loc)
| OpAddAliases (name : string) (aliasList : list string)
| OpOn (name : string) (handler : HookFunc)
| OpFireEvent (event : string) (data : option string)
| OpAddError (err : string).

Definition run_op (op : catalog_op) : M unit :=
  match op with
  | OpInitialize => Initialize
  | OpSetLogo logo style => SetLogo logo style
  | OpSetDebugMode => SetDebugMode
  | OpSetQuietMode => SetQuietMode
  | OpSetVerbose level => SetVerbose level
  | OpDefaultCommand name => DefaultCommand name
  | OpAdd c more => Add c more
  | OpAddCommand c => AddCommand c ;;; ret tt
  | OpAddAliases name aliasList => AddAliases name aliasList
  | OpOn name handler => On name handler
  | OpFireEvent event data => fireEvent event data
  | OpAddError err => AddError err
  end.

Definition run_ops (ops : list catalog_op) : M unit := for_range ops run_op.

(** The calls of handlers among what the collaborators were asked. *)
Definition invocations (l : list event) : list (HookFunc * option string) :=
  omap (fun e => match e with
                 | Invoked h d => Some (h, d)
                 | _ => None
                 end) l.

(** What [Logf] emits under a threshold. *)
Definition logged (threshold level : N) (msg : string) : list event :=
  if (level <=? threshold)%N then [Logged level msg] else [].

(** The catalog is ready for registrations when the maps [AddCommand]
    writes are allocated, as [NewApp] leaves them. *)
Definition ready (a : App) : Prop :=
  is_Some (names a) /\ is_Some (commands a) /\ is_Some (moduleCommands a).

(** The module prefix [AddCommand] computes for a trimmed name. *)
Definition module_of (name : string) : string :=
  if Index name ":" >? -1 then slice_to name (Index name ":") else "".

(** The aliases after [AddAliases]. *)
Definition with_aliases (canonicalName : string) (aliasList : list string)
    (m : gmap string string) : gmap string string :=
  foldl (fun m alias => <[alias := canonicalName]> m) m aliasList.

(** A string holds the byte [b]. *)
Fixpoint contains_byte (b : ascii) (s : string) : bool :=
  match s with
  | EmptyString => false
  | String a s' => Ascii.eqb a b || contains_byte b s'
  end.

Definition colon : ascii := ":"%char.

(** The entry after [c.Name = strings.TrimSpace(c.Name)]. *)
Definition trimmed (x : Command) : Command :=
  Cmd.set_Name (TrimSpace (Cmd.Name x)) x.

(** The state an accepted registration leaves. *)
Definition registered (c : loc) (x : Command) (w : World) : World :=
  let name := TrimSpace (Cmd.Name x) in
  let module := module_of name in
  let a := app w in
  let ms := default ∅ (moduleCommands a) in
  mkWorld
    (<[c := Cmd.mk name module (Cmd.Aliases x) (Cmd.Disabled x) theApp]>
       (heap w))
    (mkApp (hooks a) (Name a) (Version a) (Description a) (Logo_ a)
       (Strict a)
       (Some (<[name := len name]> (default ∅ (names a))))
       (errors a)
       (with_aliases name (Cmd.Aliases x) (aliases a))
       (Some (<[name := c]> (default ∅ (commands a))))
       (Some (<[module := <[name := c]> (default ∅ (ms !! module))]> ms))
       (commandName a)
       (Z.max (nameMaxLength a) (len name))
       (defaultCommand a) (cleanArgs a))
    (verbose w)
    (out w
     ++ logged (verbose w) VerbDebug
          ("[App.AddCommand] add a new CLI command: " ++ name)
     ++ [CommandInitialized c]).

(** The state in which [AddCommand] stops with a fatal error: the name
    has been trimmed, nothing else was done. *)
Definition aborted (c : loc) (x : Command) (w : World) : World :=
  with_heap (<[c := trimmed x]> (heap w)) w.

(** The state in which [AddCommand] returns a disabled entry. *)
Definition skipped (c : loc) (x : Command) (w : World) : World :=
  with_out
    (out w ++ logged (verbose w) VerbDebug
                ("command " ++ TrimSpace (Cmd.Name x)
                 ++ " has been disabled, skip add"))
    (aborted c x w).

(** The application [NewApp()] makes and initializes. *)
Definition initialApp : App :=
  set_hooks {[ EvtError := [defaultErrHandler] ]}
    (set_names (Some ∅) newAppLiteral).

(** The zero value of [App], and a process that has not made its
    application yet. *)
Definition zeroApp : App :=
  mkApp ∅ "" "" "" (mkLogo "" "") false None [] ∅ None None "" 0 "" [].

Definition startWorld (h : gmap loc Command) (threshold : N) : World :=
  mkWorld h zeroApp threshold [].

(** Entries for the examples. *)
Definition entry (name : string) (aliasList : list string)
    (disabled : bool) : Command :=
  Cmd.mk name "" aliasList disabled nilApp.

Definition sampleHeap : gmap loc Command :=
  list_to_map
    [ (1%positive, entry " mod:cmd " ["m"; "mc"] false);
      (2%positive, entry ":foo" [] true);
      (3%positive, entry " foo " ["f"] true);
      (4%positive, entry "mod:cmd" ["other"] false);
      (5%positive, entry "   " [] false);
      (6%positive, entry ":foo" [] false);
      (7%positive, entry "a-rather-long-command-name" [] false) ].

(** The sample entries, in an application made by [NewApp()]. *)
Definition sampleWorld : World :=
  final (NewApp [] (startWorld sampleHeap VerbDebug)).

(** One state is no less than another as a catalog: the running maximum
    has not decreased, and a catalog that was ready still is. *)
Definition grows (w w' : World) : Prop :=
  nameMaxLength (app w) <= nameMaxLength (app w') /\
  (ready (app w) -> ready (app w')).

(** A call keeps the catalog when the state it leaves, however it ends, is
    no less than the state it started in. *)
Definition keeps {A : Type} (m : M A) : Prop :=
  forall w, grows w (final (m w)).

(** ** Predicates for the properties of the catalog *)

(** A string starts with a white-space rune, read in the direction
    [fwd]: what [trimLeading] tests before it removes anything. *)
Definition leads (fwd : bool) (s : string) : bool :=
  match s with
  | EmptyString => false
  | String a1 s1 =>
      space1 a1
      || match s1 with
         | EmptyString => false
         | String a2 s2 =>
             (if fwd then space2 a1 a2 else space2 a2 a1)
             || match s2 with
                | EmptyString => false
                | String a3 _ =>
                    if fwd then space3 a1 a2 a3 else space3 a3 a2 a1
                end
         end
  end.

(** The entry once [AddCommand] has set its module. *)
Definition moduled (x : Command) : Command :=
  Cmd.set_Module (module_of (TrimSpace (Cmd.Name x))) (trimmed x).

(** The state in which [AddCommand] panics on a nil map, for an accepted
    entry: the entry has its name and module, and the maps that come
    before the nil one in the code have been written. *)
Definition panicked (c : loc) (x : Command) (w : World) : World :=
  let name := TrimSpace (Cmd.Name x) in
  let w1 := with_heap (<[c := moduled x]> (heap w)) w in
  match names (app w) with
  | None => w1
  | Some ns =>
      let w2 := with_app (set_names (Some (<[name := len name]> ns))
                            (app w)) w1 in
      match commands (app w) with
      | None => w2
      | Some cs =>
          with_app
            (set_nameMaxLength
               (Z.max (nameMaxLength (app w)) (len name))
               (set_commands (Some (<[name := c]> cs)) (app w2))) w2
      end
  end.

Definition nil_map_msg : string := "assignment to entry in nil map".

Definition nil_deref_msg : string :=
  "invalid memory address or nil pointer dereference".

#[global] Instance ready_dec (a : App) : Decision (ready a).
Proof. unfold ready. apply _. Defined.

(** A sequence of calls of [AddCommand], one per entry, in order: the
    calls [Add] makes. *)
Definition calls (l : list loc) : M unit :=
  for_range l (fun c => AddCommand c ;;; ret tt).

(** An entry that went through [AddCommand]: it is disabled, or its name
    is trimmed and is a key of [Commands()] and of [Names()], with its
    length there and within [nameMaxLength]. *)
Definition settled (w : World) (c : loc) : Prop :=
  exists e,
    heap w !! c = Some e /\
    (Cmd.Disabled e = true \/
     (TrimSpace (Cmd.Name e) = Cmd.Name e /\
      is_Some (Commands w !! Cmd.Name e) /\
      Names w !! Cmd.Name e = Some (len (Cmd.Name e)) /\
      len (Cmd.Name e) <= nameMaxLength (app w))).

(** The operations that write the catalog; the others only touch the
    logo, the default command, the errors, the hooks or the verbosity. *)
Definition writes_catalog (op : catalog_op) : bool :=
  match op with
  | OpInitialize | OpAdd _ _ | OpAddCommand _ | OpAddAliases _ _ => true
  | _ => false
  end.

(** Two states hold the same catalog and the same entries. *)
Definition same_catalog (w w' : World) : Prop :=
  heap w' = heap w /\
  names (app w') = names (app w) /\
  commands (app w') = commands (app w) /\
  moduleCommands (app w') = moduleCommands (app w) /\
  aliases (app w') = aliases (app w) /\
  nameMaxLength (app w') = nameMaxLength (app w).

(** What the operations keep true of the catalog. *)

(** [nameMaxLength] is 12 or the length of a registered name, whichever
    is larger. *)
Definition max_ok (w : World) : Prop :=
  12 <= nameMaxLength (app w) /\
  (nameMaxLength (app w) = 12 \/
   exists k, is_Some (Commands w !! k) /\ len k = nameMaxLength (app w)).

(** A key of [Names()] is a key of [Commands()], mapped to its length. *)
Definition names_ok (w : World) : Prop :=
  forall k v,
    Names w !! k = Some v -> v = len k /\ is_Some (Commands w !! k).

(** A key of [Commands()] is a trimmed, non-empty name without a leading
    colon, no longer than [nameMaxLength]. *)
Definition keys_ok (w : World) : Prop :=
  forall k,
    is_Some (Commands w !! k) ->
    k <> "" /\ TrimSpace k = k /\ HasPrefix k ":" = false /\
    len k <= nameMaxLength (app w).

(** A value of [Commands()] points to an enabled entry that carries the
    key as its name, the module of that name and the back-reference. *)
Definition entries_ok (w : World) : Prop :=
  forall k c,
    Commands w !! k = Some c ->
    exists e,
      heap w !! c = Some e /\ Cmd.Name e = k /\
      Cmd.Module_ e = module_of k /\ Cmd.Disabled e = false /\
      Cmd.app e = theApp.

(** [moduleCommands] holds the commands, each in the bucket of the module
    of its name, and nothing else. *)
Definition modules_ok (w : World) : Prop :=
  forall m k c,
    (exists bucket,
        ModuleCommands w !! m = Some bucket /\ bucket !! k = Some c) <->
    (m = module_of k /\ Commands w !! k = Some c).

Definition catalog_ok (w : World) : Prop :=
  ready (app w) /\ max_ok w /\ names_ok w /\ keys_ok w /\ entries_ok w /\
  modules_ok w.

(** Every registered name is in [Names()]. *)
Definition names_complete (w : World) : Prop :=
  forall k, is_Some (Commands w !! k) -> is_Some (Names w !! k).

(** A property of the state that a call keeps, however it ends. *)
Definition holds (I : World -> Prop) {A : Type} (m : M A) : Prop :=
  forall w, I w -> I (final (m w)).

(** ** Examples: the model on concrete inputs *)

Example TrimSpace_ascii : TrimSpace "  foo bar " = "foo bar".
Proof. reflexivity. Qed.

Example TrimSpace_tabs :
  TrimSpace (bytes [9; 10] ++ "a:b" ++ bytes [13; 32]) = "a:b".
Proof. reflexivity. Qed.

Example TrimSpace_unicode :
  TrimSpace (bytes [194; 160] ++ "x" ++ bytes [226; 128; 137; 227; 128; 128])
  = "x".
Proof. reflexivity. Qed.

Example TrimSpace_keeps_other_bytes :
  TrimSpace (bytes [194; 161] ++ "x" ++ bytes [128]) =
  bytes [194; 161] ++ "x" ++ bytes [128].
Proof. reflexivity. Qed.

Example Index_examples :
  Index "mod:cmd" ":" = 3 /\ Index ":cmd" ":" = 0 /\ Index "cmd" ":" = -1
  /\ Index "a:b:c" ":" = 1 /\ Index "" ":" = -1.
Proof. repeat split; reflexivity. Qed.

(** ** The monad: how calls compose *)

Lemma bind_ret {A B : Type} (a : A) (k : A -> M B) (w : World) :
  bind (ret a) k w = k a w.
Proof. reflexivity. Qed.

Lemma bind_getApp {B : Type} (k : App -> M B) (w : World) :
  bind getApp k w = k (app w) w.
Proof. reflexivity. Qed.

Lemma bind_modifyApp {B : Type} (f : App -> App) (k : unit -> M B)
    (w : World) :
  bind (modifyApp f) k w = k tt (with_app (f (app w)) w).
Proof. reflexivity. Qed.

Lemma bind_emit {B : Type} (e : event) (k : unit -> M B) (w : World) :
  bind (emit e) k w = k tt (with_out (out w ++ [e]) w).
Proof. reflexivity. Qed.

Lemma Logf_eq (level : N) (msg : string) (w : World) :
  Logf level msg w = Ok tt (with_out (out w ++ logged (verbose w) level msg) w).
Proof.
  unfold Logf, logged, emit. destruct (level <=? verbose w)%N; [done|].
  rewrite app_nil_r. by destruct w.
Qed.

Lemma bind_Logf {B : Type} (level : N) (msg : string) (k : unit -> M B)
    (w : World) :
  bind (Logf level msg) k w =
  k tt (with_out (out w ++ logged (verbose w) level msg) w).
Proof. unfold bind. by rewrite Logf_eq. Qed.

Lemma bind_getField {A B : Type} (f : Command -> A) (c : loc)
    (k : A -> M B) (w : World) (x : Command) :
  heap w !! c = Some x ->
  bind (getField f c) k w = k (f x) w.
Proof. intros H. unfold bind, getField, deref, bind, ret. by rewrite H. Qed.

Lemma bind_setField {B : Type} (f : Command -> Command) (c : loc)
    (k : unit -> M B) (w : World) (x : Command) :
  heap w !! c = Some x ->
  bind (setField f c) k w = k tt (with_heap (<[c := f x]> (heap w)) w).
Proof. intros H. unfold bind, setField, deref, bind. by rewrite H. Qed.

Lemma bind_assoc {A B C : Type} (m : M A) (f : A -> M B) (g : B -> M C)
    (w : World) :
  bind (bind m f) g w = bind m (fun a => bind (f a) g) w.
Proof. unfold bind. by destruct (m w). Qed.

(** ** Byte strings *)

Lemma HasPrefix_colon (s : string) :
  HasPrefix s ":" = true <-> exists rest, s = String colon rest.
Proof.
  destruct s as [|a s]; simpl.
  - split; [done | intros [? ?]; done].
  - rewrite andb_true_r. split.
    + intros H. apply Ascii.eqb_eq in H. subst. by eexists.
    + intros [rest [= -> ->]]. apply Ascii.eqb_refl.
Qed.

Lemma IndexFrom_shift (i : Z) (s sub : string) :
  (IndexFrom 0 s sub = -1 /\ IndexFrom i s sub = -1) \/
  (0 <= IndexFrom 0 s sub /\ IndexFrom i s sub = i + IndexFrom 0 s sub).
Proof.
  revert i. induction s as [|a s IH]; intros i; cbn [IndexFrom].
  - destruct (HasPrefix "" sub); [right; lia | by left].
  - destruct (HasPrefix (String a s) sub); [right; lia |].
    destruct (IH (i + 1)) as [[H1 H2] | [H1 H2]];
      destruct (IH (0 + 1)) as [[H3 H4] | [H3 H4]]; lia.
Qed.

Lemma IndexFrom_ge (i : Z) (s sub : string) :
  IndexFrom i s sub = -1 \/ i <= IndexFrom i s sub.
Proof. destruct (IndexFrom_shift i s sub) as [[_ H] | [H1 H2]]; lia. Qed.

Lemma Index_zero_iff (s : string) :
  Index s ":" = 0 <-> HasPrefix s ":" = true.
Proof.
  unfold Index. destruct s as [|a s].
  - simpl. split; [lia | done].
  - cbn [IndexFrom]. destruct (HasPrefix (String a s) ":") eqn:E; [done |].
    split; [| done]. intros H.
    destruct (IndexFrom_ge (0 + 1) s ":"); lia.
Qed.

Lemma Index_colon_app (m rest : string) :
  contains_byte colon m = false ->
  Index (m ++ String colon rest) ":" = len m.
Proof.
  unfold Index, len. induction m as [|a m IH]; intros H.
  - reflexivity.
  - simpl in H. apply orb_false_elim in H as [Ha Hm].
    change (String a m ++ String colon rest)
      with (String a (m ++ String colon rest)).
    unfold colon in *. cbn [IndexFrom HasPrefix]. rewrite Ha. cbn [andb].
    specialize (IH Hm).
    destruct (IndexFrom_shift (0 + 1) (m ++ String ":"%char rest) ":")
      as [[H1 H2] | [H1 H2]]; simpl String.length; lia.
Qed.

Lemma Index_no_colon (s : string) :
  contains_byte colon s = false -> Index s ":" = -1.
Proof.
  unfold Index. induction s as [|a s IH]; intros H; [done |].
  simpl in H. apply orb_false_elim in H as [Ha Hs].
  unfold colon in *. cbn [IndexFrom HasPrefix]. rewrite Ha. cbn [andb].
  specialize (IH Hs).
  destruct (IndexFrom_shift (0 + 1) s ":") as [[H1 H2] | [H1 H2]]; lia.
Qed.

Lemma take_app_length (m rest : string) :
  take (String.length m) (m ++ rest) = m.
Proof. induction m as [|a m IH]; simpl; [by destruct rest | by rewrite IH]. Qed.

Lemma module_of_prefix (m rest : string) :
  contains_byte colon m = false ->
  module_of (m ++ String colon rest) = m.
Proof.
  intros H. unfold module_of, slice_to. rewrite (Index_colon_app _ _ H).
  unfold len. rewrite Nat2Z.id, take_app_length.
  destruct (Z.gtb_spec (Z.of_nat (String.length m)) (-1)); [done | lia].
Qed.

Lemma module_of_no_colon (s : string) :
  contains_byte colon s = false -> module_of s = "".
Proof. intros H. unfold module_of. by rewrite (Index_no_colon _ H). Qed.

Lemma append_nil_r (s : string) : s ++ "" = s.
Proof.
  induction s as [|a s IH]; [done |].
  change (String a s ++ "") with (String a (s ++ "")). by rewrite IH.
Qed.

Lemma append_assoc (s t u : string) : (s ++ t) ++ u = s ++ (t ++ u).
Proof.
  induction s as [|a s IH]; [done |].
  change ((String a s ++ t) ++ u) with (String a ((s ++ t) ++ u)).
  by rewrite IH.
Qed.

Lemma rev_append_app (s acc : string) :
  rev_append s acc = rev s ++ acc.
Proof.
  unfold rev. revert acc. induction s as [|a s IH]; intros acc; [done |].
  cbn [rev_append]. rewrite (IH (String a acc)), (IH (String a "")).
  rewrite append_assoc. reflexivity.
Qed.

Lemma rev_app (s t : string) : rev (s ++ t) = rev t ++ rev s.
Proof.
  induction s as [|a s IH].
  - cbn. by rewrite append_nil_r.
  - change (String a s ++ t) with (String a (s ++ t)).
    unfold rev at 1 3. cbn [rev_append].
    rewrite !rev_append_app, IH, append_assoc. reflexivity.
Qed.

Lemma space1_colon : space1 colon = false.
Proof. reflexivity. Qed.

Lemma space2_colon (fwd : bool) (a : ascii) :
  (if fwd then space2 a colon else space2 colon a) = false.
Proof.
  destruct fwd; [| reflexivity]. unfold space2.
  destruct (byte a =? 194)%N; reflexivity.
Qed.

Lemma space3_colon (fwd : bool) (a1 a2 : ascii) :
  (if fwd then space3 a1 a2 colon else space3 colon a2 a1) = false.
Proof.
  destruct fwd; [| reflexivity]. unfold space3. cbn.
  destruct (byte a1 =? 225)%N, (byte a1 =? 226)%N, (byte a1 =? 227)%N,
    (byte a2 =? 154)%N, (byte a2 =? 128)%N, (byte a2 =? 129)%N;
    reflexivity.
Qed.

Lemma append_cons (a : ascii) (s t : string) :
  String a s ++ t = String a (s ++ t).
Proof. reflexivity. Qed.

Lemma append_nil_l (t : string) : "" ++ t = t.
Proof. reflexivity. Qed.

(** Trimming stops at a colon: white space is removed before it, never
    the colon itself. *)
Lemma trimLeading_before_colon (fwd : bool) (n : nat) (r : string) :
  (String.length r <= n)%nat ->
  exists r', trimLeading fwd (r ++ String colon "") = r' ++ String colon "".
Proof.
  revert r. induction n as [|n IH]; intros r Hn.
  { destruct r; [by exists "" | cbn in Hn; lia]. }
  destruct r as [|a1 r1]; [by exists "" |].
  cbn [String.length] in Hn. rewrite append_cons.
  destruct r1 as [|a2 r2].
  { rewrite append_nil_l. cbn [trimLeading].
    destruct (space1 a1); [by exists "" |].
    rewrite space2_colon. by exists (String a1 ""). }
  cbn [String.length] in Hn. rewrite append_cons.
  destruct r2 as [|a3 r3].
  { rewrite append_nil_l. cbn [trimLeading].
    destruct (space1 a1).
    { apply (IH (String a2 "")). cbn. lia. }
    destruct (if fwd then space2 a1 a2 else space2 a2 a1);
      [by exists "" |].
    rewrite space3_colon. by exists (String a1 (String a2 "")). }
  cbn [String.length] in Hn. rewrite append_cons. cbn [trimLeading].
  destruct (space1 a1).
  { apply (IH (String a2 (String a3 r3))). cbn. lia. }
  destruct (if fwd then space2 a1 a2 else space2 a2 a1).
  { apply (IH (String a3 r3)). cbn. lia. }
  destruct (if fwd then space3 a1 a2 a3 else space3 a3 a2 a1).
  { apply IH. lia. }
  by exists (String a1 (String a2 (String a3 r3))).
Qed.

Lemma TrimLeft_colon (s : string) :
  TrimLeft (String colon s) = String colon s.
Proof.
  unfold TrimLeft. cbn [trimLeading]. rewrite space1_colon.
  destruct s as [|a2 s2]; [done |].
  change (space2 colon a2) with false. cbn match.
  destruct s2 as [|a3 s3]; [done |]. reflexivity.
Qed.

(** A name that begins with a colon still does once trimmed. *)
Lemma TrimSpace_keeps_leading_colon (s : string) :
  HasPrefix s ":" = true -> HasPrefix (TrimSpace s) ":" = true.
Proof.
  intros H. apply HasPrefix_colon in H as [rest ->].
  unfold TrimSpace. rewrite TrimLeft_colon. unfold TrimRight.
  change (String colon rest) with (String colon "" ++ rest).
  rewrite rev_app. change (rev (String colon "")) with (String colon "").
  destruct (trimLeading_before_colon false _ (rev rest) (le_n _))
    as [r' ->].
  rewrite rev_app. reflexivity.
Qed.

(** ** [AddCommand], case by case *)

Ltac heap_lookup :=
  cbn [heap with_heap with_app with_out with_verbose];
  first [ eassumption | apply lookup_insert_eq ].

Ltac norm :=
  unfold with_heap, with_app, with_out, with_verbose, set_hooks, set_Logo,
    set_names, set_errors, set_aliases, set_commands, set_moduleCommands,
    set_nameMaxLength, set_defaultCommand, Cmd.set_Name, Cmd.set_Module,
    Cmd.set_app;
  cbn [heap app verbose out hooks Name Version Description Logo_ Strict
       names errors aliases commands moduleCommands commandName
       nameMaxLength defaultCommand cleanArgs Cmd.Name Cmd.Module_
       Cmd.Aliases Cmd.Disabled Cmd.app].

Ltac step :=
  first
    [ rewrite bind_ret
    | rewrite bind_getApp
    | rewrite bind_modifyApp
    | rewrite bind_Logf
    | erewrite bind_getField by heap_lookup
    | erewrite bind_setField by heap_lookup ];
  cbv beta zeta.

Lemma AddCommand_empty (c : loc) (w : World) (x : Command) :
  heap w !! c = Some x ->
  TrimSpace (Cmd.Name x) = "" ->
  AddCommand c w =
  Fatal "The added command name can not be empty." (aborted c x w).
Proof.
  intros Hx He. unfold AddCommand, aborted, trimmed. do 3 step.
  cbn [Cmd.Name Cmd.set_Name]. rewrite He. reflexivity.
Qed.

Lemma AddCommand_disabled (c : loc) (w : World) (x : Command) :
  heap w !! c = Some x ->
  TrimSpace (Cmd.Name x) <> "" ->
  Cmd.Disabled x = true ->
  AddCommand c w = Ok c (skipped c x w).
Proof.
  intros Hx Hne Hd. unfold AddCommand, skipped, aborted. do 3 step.
  cbn [Cmd.Name Cmd.set_Name].
  apply String.eqb_neq in Hne. rewrite Hne. unfold when. step.
  unfold IsDisabled. step. cbn [Cmd.Disabled Cmd.set_Name]. rewrite Hd.
  do 2 step. reflexivity.
Qed.

Lemma AddCommand_colon (c : loc) (w : World) (x : Command) :
  heap w !! c = Some x ->
  Cmd.Disabled x = false ->
  HasPrefix (TrimSpace (Cmd.Name x)) ":" = true ->
  AddCommand c w =
  Fatal "The added command module can not be empty." (aborted c x w).
Proof.
  intros Hx Hd Hp. unfold AddCommand, aborted. do 3 step.
  cbn [Cmd.Name Cmd.set_Name].
  assert (Hne : TrimSpace (Cmd.Name x) <> "").
  { intros E. rewrite E in Hp. discriminate. }
  apply String.eqb_neq in Hne. rewrite Hne. unfold when. step.
  unfold IsDisabled. step. cbn [Cmd.Disabled Cmd.set_Name]. rewrite Hd.
  step. cbn [Cmd.Name Cmd.set_Name]. apply Index_zero_iff in Hp.
  rewrite Hp. reflexivity.
Qed.

Lemma AddAliases_eq (name : string) (als : list string) (w : World) :
  AddAliases name als w =
  Ok tt (with_app (set_aliases (with_aliases name als (aliases (app w)))
                     (app w)) w).
Proof.
  unfold AddAliases, with_aliases. revert w.
  induction als as [|al als IH]; intros w.
  - simpl. unfold ret. by destruct w as [? [] ? ?].
  - cbn [for_range foldl]. step. rewrite IH. reflexivity.
Qed.

Lemma bind_AddAliases {B : Type} (name : string) (als : list string)
    (k : unit -> M B) (w : World) :
  bind (AddAliases name als) k w =
  k tt (with_app (set_aliases (with_aliases name als (aliases (app w)))
                     (app w)) w).
Proof. unfold bind. by rewrite AddAliases_eq. Qed.

Lemma bind_assign {V B : Type} (m : gmap string V) (key : string) (v : V)
    (k : gmap string V -> M B) (w : World) :
  bind (assign (Some m) key v) k w = k (<[key := v]> m) w.
Proof. reflexivity. Qed.

Lemma bind_set_module {B : Type} (c : loc) (name : string)
    (k : unit -> M B) (w : World) (y : Command) :
  heap w !! c = Some y ->
  Cmd.Name y = name ->
  bind (if Index name ":" >? -1
        then let* name' := getField Cmd.Name c in
             setField (Cmd.set_Module (slice_to name' (Index name ":"))) c
        else setField (Cmd.set_Module "") c) k w =
  k tt (with_heap (<[c := Cmd.set_Module (module_of name) y]> (heap w)) w).
Proof.
  intros Hy Hn. unfold module_of.
  destruct (Index name ":" >? -1); [rewrite bind_assoc |];
    repeat step; by rewrite ?Hn.
Qed.

Lemma bind_max {B : Type} (n : Z) (k : unit -> M B) (w : World) :
  bind (when (n >? nameMaxLength (app w))
          (modifyApp (set_nameMaxLength n))) k w =
  k tt (with_app
          (set_nameMaxLength (Z.max (nameMaxLength (app w)) n) (app w)) w).
Proof.
  unfold when. destruct (Z.gtb_spec n (nameMaxLength (app w))).
  - rewrite Z.max_r by lia. reflexivity.
  - rewrite Z.max_l by lia. rewrite bind_ret. by destruct w as [? [] ? ?].
Qed.

Lemma AddCommand_accept (c : loc) (w : World) (x : Command) :
  heap w !! c = Some x ->
  TrimSpace (Cmd.Name x) <> "" ->
  Cmd.Disabled x = false ->
  HasPrefix (TrimSpace (Cmd.Name x)) ":" = false ->
  ready (app w) ->
  AddCommand c w = Ok c (registered c x w).
Proof.
  intros Hx Hne Hd Hp ([ns Hn] & [cs Hc] & [ms Hm]).
  destruct w as [h a v o]. destruct a. cbn in Hx, Hn, Hc, Hm. subst.
  unfold AddCommand, registered. do 3 step. norm.
  apply String.eqb_neq in Hne. rewrite Hne. unfold when at 1. step.
  unfold IsDisabled. step. norm. rewrite Hd.
  step. norm.
  assert (Hi : (Index (TrimSpace (Cmd.Name x)) ":" =? 0) = false).
  { apply Z.eqb_neq. intros E. apply Index_zero_iff in E. congruence. }
  rewrite Hi. unfold when at 1. step.
  erewrite bind_set_module by (heap_lookup || reflexivity).
  norm. do 3 step. norm. rewrite bind_assign.
  do 3 step. norm. rewrite bind_assign.
  do 2 step. rewrite bind_max. norm. do 2 step. norm.
  unfold has_key, when.
  destruct (ms !! module_of (TrimSpace (Cmd.Name x))) as [b|] eqn:Hb.
  - rewrite bool_decide_eq_true_2 by eauto. cbn [negb]. do 4 step. norm.
    unfold assign_in. rewrite Hb. do 4 step. norm.
    rewrite bind_AddAliases. norm. do 3 step. norm.
    unfold initialize. rewrite bind_assoc. unfold bind at 1, deref.
    cbn [heap]. rewrite lookup_insert_eq. rewrite bind_emit. unfold ret.
    norm. cbn [default from_option id]. rewrite Hb, !insert_insert_eq, <- app_assoc.
    reflexivity.
  - rewrite bool_decide_eq_false_2 by (intros [? ?]; done). cbn [negb].
    rewrite bind_assoc. step. rewrite bind_assoc. step. norm.
    rewrite bind_assoc, bind_assign. do 4 step. norm.
    unfold assign_in. rewrite lookup_insert_eq. do 4 step. norm.
    rewrite bind_AddAliases. norm. do 3 step. norm.
    unfold initialize. rewrite bind_assoc. unfold bind at 1, deref.
    cbn [heap]. rewrite lookup_insert_eq. rewrite bind_emit. unfold ret.
    norm. cbn [default from_option id]. rewrite Hb, !insert_insert_eq, <- app_assoc.
    reflexivity.
Qed.

(** ** What every operation keeps *)

Lemma grows_refl (w : World) : grows w w.
Proof. split; [lia | done]. Qed.

Lemma grows_trans (w1 w2 w3 : World) :
  grows w1 w2 -> grows w2 w3 -> grows w1 w3.
Proof. intros [H1 H2] [H3 H4]. split; [lia | auto]. Qed.

Lemma keeps_ret {A : Type} (a : A) : keeps (ret a).
Proof. intros w. apply grows_refl. Qed.

Lemma keeps_bind {A B : Type} (m : M A) (k : A -> M B) :
  keeps m -> (forall a, keeps (k a)) -> keeps (bind m k).
Proof.
  intros Hm Hk w. unfold bind. specialize (Hm w).
  destruct (m w) as [a w' | msg w' | msg w']; cbn [final] in *; [| done..].
  eapply grows_trans; [exact Hm | apply Hk].
Qed.

Lemma keeps_when (b : bool) (m : M unit) : keeps m -> keeps (when b m).
Proof. destruct b; [done | intros _; apply keeps_ret]. Qed.

Lemma keeps_for_range {A : Type} (l : list A) (body : A -> M unit) :
  (forall x, keeps (body x)) -> keeps (for_range l body).
Proof.
  intros H. induction l as [|x l IH]; cbn [for_range].
  - apply keeps_ret.
  - apply keeps_bind; [apply H | intros _; exact IH].
Qed.

Lemma keeps_getApp : keeps getApp.
Proof. intros w. apply grows_refl. Qed.

Lemma keeps_modifyApp (f : App -> App) :
  (forall a, nameMaxLength a <= nameMaxLength (f a)) ->
  (forall a, ready a -> ready (f a)) ->
  keeps (modifyApp f).
Proof. intros H1 H2 w. split; cbn; auto. Qed.

Lemma keeps_emit (e : event) : keeps (emit e).
Proof. intros w. split; cbn; [lia | done]. Qed.

Lemma keeps_Logf (level : N) (msg : string) : keeps (Logf level msg).
Proof. intros w. rewrite Logf_eq. split; cbn; [lia | done]. Qed.

Lemma keeps_setVerbosity (level : N) : keeps (setVerbosity level).
Proof. intros w. split; cbn; [lia | done]. Qed.

Lemma keeps_exitWithErr (msg : string) : keeps (exitWithErr msg).
Proof. intros w. apply grows_refl. Qed.

Lemma keeps_deref (c : loc) : keeps (deref c).
Proof. intros w. unfold deref. destruct (heap w !! c); apply grows_refl. Qed.

Lemma keeps_getField {A : Type} (f : Command -> A) (c : loc) :
  keeps (getField f c).
Proof.
  apply keeps_bind; [apply keeps_deref | intros; apply keeps_ret].
Qed.

Lemma keeps_setField (f : Command -> Command) (c : loc) :
  keeps (setField f c).
Proof.
  apply keeps_bind; [apply keeps_deref |].
  intros x w. split; cbn; [lia | done].
Qed.

Lemma keeps_assign {V : Type} (m : option (gmap string V)) (k : string)
    (v : V) : keeps (assign m k v).
Proof. destruct m; intros w; apply grows_refl. Qed.

Lemma keeps_assign_in {V : Type}
    (m : option (gmap string (gmap string V))) (k1 k2 : string) (v : V) :
  keeps (assign_in m k1 k2 v).
Proof.
  unfold assign_in. destruct m as [m|]; [destruct (m !! k1) |];
    intros w; apply grows_refl.
Qed.

(** The one place where [nameMaxLength] is written: it is read just
    before, and only replaced by a larger value. *)
Lemma keeps_max {B : Type} (n : Z) (k : M B) :
  keeps k ->
  keeps (let* a := getApp in
         when (n >? nameMaxLength a) (modifyApp (set_nameMaxLength n)) ;;;
         k).
Proof.
  intros Hk w. rewrite bind_getApp, bind_max.
  eapply grows_trans; [| apply Hk]. split; cbn; [lia | done].
Qed.

Ltac keeps_field :=
  solve [ intros []; cbn; lia | intros [] H; exact H
        | intros [] (? & ? & ?); repeat split; cbn in *; eauto ].

Ltac keeps_step :=
  first
    [ apply keeps_max
    | apply keeps_ret
    | apply keeps_getApp
    | apply keeps_emit
    | apply keeps_Logf
    | apply keeps_setVerbosity
    | apply keeps_exitWithErr
    | apply keeps_deref
    | apply keeps_getField
    | apply keeps_setField
    | apply keeps_assign
    | apply keeps_assign_in
    | apply keeps_when
    | apply keeps_for_range; intros
    | apply keeps_modifyApp; keeps_field
    | apply keeps_bind; [| intros]
    | match goal with
      | |- keeps (if ?b then _ else _) => destruct b
      | |- keeps (match ?l with [] => _ | _ :: _ => _ end) => destruct l
      end ].

Lemma keeps_AddAliases (name : string) (als : list string) :
  keeps (AddAliases name als).
Proof. unfold AddAliases. repeat keeps_step. Qed.

Lemma keeps_fireEvent (event : string) (data : option string) :
  keeps (fireEvent event data).
Proof. unfold fireEvent, SimpleHooks_Fire. repeat keeps_step. Qed.

Lemma keeps_Initialize : keeps Initialize.
Proof.
  unfold Initialize, AddVars_helpVars, SimpleHooks_Add, SimpleHooks_On.
  repeat first [ apply keeps_fireEvent | keeps_step ].
Qed.

Lemma keeps_AddCommand (c : loc) : keeps (AddCommand c).
Proof.
  unfold AddCommand, IsDisabled, initialize.
  repeat first [ apply keeps_AddAliases | keeps_step ].
Qed.

Lemma keeps_run_op (op : catalog_op) : keeps (run_op op).
Proof.
  destruct op; cbn [run_op];
    unfold SetLogo, SetDebugMode, SetQuietMode, SetVerbose, DefaultCommand,
      Add, On, SimpleHooks_On, AddError;
    repeat first
      [ apply keeps_Initialize | apply keeps_AddCommand
      | apply keeps_AddAliases | apply keeps_fireEvent | keeps_step ].
Qed.

Lemma keeps_run_ops (ops : list catalog_op) : keeps (run_ops ops).
Proof. apply keeps_for_range, keeps_run_op. Qed.

(** A call of [AddCommand] that returns has either skipped a disabled
    entry or registered an accepted one. *)
Lemma AddCommand_returns_inv (c r : loc) (w w' : World) :
  ready (app w) ->
  AddCommand c w = Ok r w' ->
  exists x,
    heap w !! c = Some x /\ r = c /\ TrimSpace (Cmd.Name x) <> "" /\
    ((Cmd.Disabled x = true /\ w' = skipped c x w) \/
     (Cmd.Disabled x = false /\
      HasPrefix (TrimSpace (Cmd.Name x)) ":" = false /\
      w' = registered c x w)).
Proof.
  intros Hr H. destruct (heap w !! c) as [x|] eqn:Hx.
  - exists x. destruct (decide (TrimSpace (Cmd.Name x) = "")) as [He|Hne].
    { rewrite (AddCommand_empty c w x Hx He) in H. discriminate. }
    destruct (Cmd.Disabled x) eqn:Hd.
    { rewrite (AddCommand_disabled c w x Hx Hne Hd) in H.
      injection H as <- <-. auto 10. }
    destruct (HasPrefix (TrimSpace (Cmd.Name x)) ":") eqn:Hp.
    { rewrite (AddCommand_colon c w x Hx Hd Hp) in H. discriminate. }
    rewrite (AddCommand_accept c w x Hx Hne Hd Hp Hr) in H.
    injection H as <- <-. auto 10.
  - revert H. unfold AddCommand.
    unfold bind at 1, getField at 1, bind at 1, deref at 1.
    rewrite Hx. discriminate.
Qed.

(** ** [NewApp] and [Initialize] *)

Lemma for_range_emit {A : Type} (l : list A) (f : A -> event) (w : World) :
  for_range l (fun x => emit (f x)) w =
  Ok tt (with_out (out w ++ map f l) w).
Proof.
  revert w. induction l as [|x l IH]; intros w; cbn [for_range map].
  - unfold ret. rewrite app_nil_r. by destruct w.
  - rewrite bind_emit, IH. cbn. by rewrite <- app_assoc.
Qed.

Lemma fireEvent_eq (event : string) (data : option string) (w : World) :
  fireEvent event data w =
  Ok tt (with_out
           (out w
            ++ logged (verbose w) VerbDebug
                 ("[App.Fire] trigger the application event: " ++ event)
            ++ map (fun h => Invoked h data) (handlers (app w) event)) w).
Proof.
  unfold fireEvent, SimpleHooks_Fire. rewrite bind_Logf, bind_getApp.
  rewrite for_range_emit. cbn. by rewrite <- app_assoc.
Qed.

Lemma On_eq (name : string) (h : HookFunc) (w : World) :
  On name h w =
  Ok tt (with_app
           (set_hooks (<[name := (handlers (app w) name ++ [h])%list]>
                         (hooks (app w))) (app w))
           (with_out
              (out w ++ logged (verbose w) VerbDebug
                          ("[App.On] add application hook: " ++ name)) w)).
Proof. unfold On, SimpleHooks_On. rewrite bind_Logf. reflexivity. Qed.

Lemma handlers_insert (a : App) (name n : string) (hs : list HookFunc) :
  handlers (set_hooks (<[name := hs]> (hooks a)) a) n =
  if decide (name = n) then hs else handlers a n.
Proof.
  unfold handlers. cbn. rewrite lookup_insert. by case_decide.
Qed.

Lemma invocations_app (l1 l2 : list event) :
  invocations (l1 ++ l2) = (invocations l1 ++ invocations l2)%list.
Proof. unfold invocations. apply omap_app. Qed.

Lemma invocations_logged (threshold level : N) (msg : string) :
  invocations (logged threshold level msg) = [].
Proof. unfold logged. by destruct (level <=? threshold)%N. Qed.

Lemma invocations_Invoked (data : option string) (hs : list HookFunc) :
  invocations (map (fun h => Invoked h data) hs) =
  map (fun h => (h, data)) hs.
Proof. induction hs as [|h hs IH]; [done |]. cbn. by rewrite <- IH. Qed.

Lemma Initialize_eq (w : World) :
  Initialize w =
  fireEvent EvtInit None
    (with_app
       (set_hooks
          (<[EvtError :=
               (handlers (app w) EvtError ++ [defaultErrHandler])%list]>
             (hooks (app w)))
          (set_names (Some ∅) (app w)))
       (with_out
          (out w ++ [HelpVarsAdded (Name (app w)) (Version (app w))
                       (Description (app w)) (Text (Logo_ (app w)))
                       (Style (Logo_ (app w)))]) w)).
Proof. reflexivity. Qed.

Lemma NewApp_eq (w : World) :
  NewApp [] w =
  Ok tt (mkWorld (heap w) initialApp (verbose w)
           (out w
            ++ [HelpVarsAdded "My CLI App" "1.0.0" "" "" "info"]
            ++ logged (verbose w) VerbDebug
                 "[App.Fire] trigger the application event: init")).
Proof.
  unfold NewApp. rewrite bind_modifyApp, bind_ret, Initialize_eq.
  rewrite fireEvent_eq. cbn. rewrite app_nil_r, <- app_assoc. reflexivity.
Qed.

Lemma ready_initialApp : ready initialApp.
Proof. repeat split; by eexists. Qed.

Lemma split_at_colon (s : string) :
  contains_byte colon s = true ->
  exists m rest, s = m ++ String colon rest /\ contains_byte colon m = false.
Proof.
  induction s as [|a s IH]; [done |]. cbn [contains_byte].
  destruct (Ascii.eqb a colon) eqn:Ha.
  - intros _. apply Ascii.eqb_eq in Ha as ->. by exists "", s.
  - cbn [orb]. intros H. destruct (IH H) as (m & rest & -> & Hm).
    exists (String a m), rest. split; [done |]. cbn [contains_byte].
    by rewrite Ha, Hm.
Qed.

Lemma ready_sampleWorld : ready (app sampleWorld).
Proof. repeat split; by eexists. Qed.

Example AddCommand_mod_cmd :
  let w' := final (AddCommand 1%positive sampleWorld) in
  heap w' !! 1%positive
    = Some (Cmd.mk "mod:cmd" "mod" ["m"; "mc"] false theApp) /\
  Commands w' !! "mod:cmd" = Some 1%positive /\
  Names w' !! "mod:cmd" = Some 7 /\
  (ModuleCommands w' !! "mod") ≫= (fun bucket => bucket !! "mod:cmd")
    = Some 1%positive /\
  aliases (app w') !! "m" = Some "mod:cmd" /\
  aliases (app w') !! "mc" = Some "mod:cmd" /\
  nameMaxLength (app w') = 12.
Proof. vm_compute. repeat split. Qed.

Example AddCommand_long_name :
  nameMaxLength (app (final (AddCommand 7%positive sampleWorld))) = 26.
Proof. vm_compute. reflexivity. Qed.

Lemma ready_registered (c : loc) (x : Command) (w : World) :
  ready (app (registered c x w)).
Proof. repeat split; by eexists. Qed.

(** ** The catalog: registration *)

(** C1.  An enabled entry whose trimmed name is not empty and does not
    begin with a colon is registered: [AddCommand] returns it, [Commands()]
    maps the name to it, [Names()] maps the name to its length, and
    [nameMaxLength] is at least that length. *)
Theorem AddCommand_registers_name (c : loc) (w : World) (x : Command) :
  ready (app w) ->
  heap w !! c = Some x ->
  TrimSpace (Cmd.Name x) <> "" ->
  HasPrefix (TrimSpace (Cmd.Name x)) ":" = false ->
  Cmd.Disabled x = false ->
  exists w' e,
    AddCommand c w = Ok c w' /\
    heap w' !! c = Some e /\
    Cmd.Name e = TrimSpace (Cmd.Name x) /\
    Commands w' !! Cmd.Name e = Some c /\
    Names w' !! Cmd.Name e = Some (len (Cmd.Name e)) /\
    len (Cmd.Name e) <= nameMaxLength (app w').
Proof.
  intros Hr Hx Hne Hp Hd.
  exists (registered c x w),
    (Cmd.mk (TrimSpace (Cmd.Name x)) (module_of (TrimSpace (Cmd.Name x)))
       (Cmd.Aliases x) (Cmd.Disabled x) theApp).
  split; [exact (AddCommand_accept c w x Hx Hne Hd Hp Hr) |].
  unfold registered, Commands, Names. cbn.
  rewrite !lookup_insert_eq. repeat split. lia.
Qed.

Lemma AddCommand_registers_name_witness :
  exists w' e,
    AddCommand 1%positive sampleWorld = Ok 1%positive w' /\
    heap w' !! 1%positive = Some e /\
    Cmd.Name e = "mod:cmd" /\
    Commands w' !! Cmd.Name e = Some 1%positive /\
    Names w' !! Cmd.Name e = Some (len (Cmd.Name e)) /\
    len (Cmd.Name e) <= nameMaxLength (app w').
Proof.
  apply (AddCommand_registers_name 1%positive sampleWorld
           (entry " mod:cmd " ["m"; "mc"] false)).
  - exact ready_sampleWorld.
  - reflexivity.
  - vm_compute. discriminate.
  - reflexivity.
  - reflexivity.
Defined.

(** C2, as the code has it.  When the trimmed name is empty, or when the
    entry is enabled and its name, as given or once trimmed, begins with a
    colon, [AddCommand] ends the process with one of its two error
    messages, and the application is, at that point, what it was before
    the call: the entry is not stored, and [commands], [names],
    [moduleCommands] and [aliases] are unchanged. *)
Theorem AddCommand_fatal_on_invalid_name (c : loc) (w : World)
    (x : Command) :
  heap w !! c = Some x ->
  TrimSpace (Cmd.Name x) = "" \/
  (Cmd.Disabled x = false /\
   (HasPrefix (Cmd.Name x) ":" = true \/
    HasPrefix (TrimSpace (Cmd.Name x)) ":" = true)) ->
  exists msg w',
    AddCommand c w = Fatal msg w' /\
    (msg = "The added command name can not be empty." \/
     msg = "The added command module can not be empty.") /\
    app w' = app w /\
    Commands w' = Commands w /\
    Names w' = Names w /\
    ModuleCommands w' = ModuleCommands w /\
    aliases (app w') = aliases (app w).
Proof.
  intros Hx [He | [Hd Hp]].
  - exists "The added command name can not be empty.", (aborted c x w).
    split; [exact (AddCommand_empty c w x Hx He) | auto 10].
  - assert (Hp' : HasPrefix (TrimSpace (Cmd.Name x)) ":" = true).
    { destruct Hp as [Hp | Hp]; [| exact Hp].
      by apply TrimSpace_keeps_leading_colon. }
    exists "The added command module can not be empty.", (aborted c x w).
    split; [exact (AddCommand_colon c w x Hx Hd Hp') | auto 10].
Qed.

Lemma AddCommand_fatal_on_invalid_name_witness :
  (exists msg w',
     AddCommand 5%positive sampleWorld = Fatal msg w' /\
     (msg = "The added command name can not be empty." \/
      msg = "The added command module can not be empty.") /\
     app w' = app sampleWorld /\
     Commands w' = Commands sampleWorld /\
     Names w' = Names sampleWorld /\
     ModuleCommands w' = ModuleCommands sampleWorld /\
     aliases (app w') = aliases (app sampleWorld)) /\
  (exists msg w',
     AddCommand 6%positive sampleWorld = Fatal msg w' /\
     (msg = "The added command name can not be empty." \/
      msg = "The added command module can not be empty.") /\
     app w' = app sampleWorld /\
     Commands w' = Commands sampleWorld /\
     Names w' = Names sampleWorld /\
     ModuleCommands w' = ModuleCommands sampleWorld /\
     aliases (app w') = aliases (app sampleWorld)).
Proof.
  split.
  - apply (AddCommand_fatal_on_invalid_name 5%positive sampleWorld
             (entry "   " [] false)).
    + reflexivity.
    + left. reflexivity.
  - apply (AddCommand_fatal_on_invalid_name 6%positive sampleWorld
             (entry ":foo" [] false)).
    + reflexivity.
    + right. split; [reflexivity | left; reflexivity].
Defined.

(** C2, as it is stated, fails on a disabled entry: the name [":foo"] has
    its colon at position 0, and [AddCommand] returns instead of ending the
    process. *)
Lemma AddCommand_disabled_colon_not_fatal :
  heap sampleWorld !! 2%positive = Some (entry ":foo" [] true) /\
  HasPrefix (TrimSpace ":foo") ":" = true /\
  (exists w', AddCommand 2%positive sampleWorld = Ok 2%positive w') /\
  ~ (exists msg w', AddCommand 2%positive sampleWorld = Fatal msg w').
Proof.
  assert (E : AddCommand 2%positive sampleWorld =
              Ok 2%positive
                 (skipped 2%positive (entry ":foo" [] true) sampleWorld)).
  { apply AddCommand_disabled; [reflexivity | by vm_compute | reflexivity]. }
  repeat split.
  - by eexists.
  - intros (msg & w' & H). rewrite E in H. discriminate.
Qed.

(** C3, as the code has it.  A disabled entry whose trimmed name is not
    empty is returned and not stored: the application is unchanged, so the
    name is in [Commands()] or [Names()] afterwards only if it was there
    before; and the entry keeps every field but [Name], which holds the
    trimmed name. *)
Theorem AddCommand_skips_disabled (c : loc) (w : World) (x : Command) :
  heap w !! c = Some x ->
  Cmd.Disabled x = true ->
  TrimSpace (Cmd.Name x) <> "" ->
  exists w' e,
    AddCommand c w = Ok c w' /\
    app w' = app w /\
    Commands w' = Commands w /\
    Names w' = Names w /\
    (Commands w !! TrimSpace (Cmd.Name x) = None ->
     Commands w' !! TrimSpace (Cmd.Name x) = None) /\
    (Names w !! TrimSpace (Cmd.Name x) = None ->
     Names w' !! TrimSpace (Cmd.Name x) = None) /\
    heap w' !! c = Some e /\
    Cmd.Name e = TrimSpace (Cmd.Name x) /\
    Cmd.Module_ e = Cmd.Module_ x /\
    Cmd.Aliases e = Cmd.Aliases x /\
    Cmd.Disabled e = Cmd.Disabled x /\
    Cmd.app e = Cmd.app x /\
    (forall c', c' <> c -> heap w' !! c' = heap w !! c').
Proof.
  intros Hx Hd Hne. exists (skipped c x w), (trimmed x).
  split; [exact (AddCommand_disabled c w x Hx Hne Hd) |].
  unfold skipped, aborted. cbn. rewrite lookup_insert_eq.
  repeat split; try done.
  intros c' Hc'. by rewrite lookup_insert_ne.
Qed.

Lemma AddCommand_skips_disabled_witness :
  exists w' e,
    AddCommand 3%positive sampleWorld = Ok 3%positive w' /\
    app w' = app sampleWorld /\
    Commands w' = Commands sampleWorld /\
    Names w' = Names sampleWorld /\
    (Commands sampleWorld !! TrimSpace " foo " = None ->
     Commands w' !! TrimSpace " foo " = None) /\
    (Names sampleWorld !! TrimSpace " foo " = None ->
     Names w' !! TrimSpace " foo " = None) /\
    heap w' !! 3%positive = Some e /\
    Cmd.Name e = TrimSpace " foo " /\
    Cmd.Module_ e = "" /\
    Cmd.Aliases e = ["f"] /\
    Cmd.Disabled e = true /\
    Cmd.app e = nilApp /\
    (forall c', c' <> 3%positive ->
                heap w' !! c' = heap sampleWorld !! c').
Proof.
  apply (AddCommand_skips_disabled 3%positive sampleWorld
           (entry " foo " ["f"] true)).
  - reflexivity.
  - reflexivity.
  - vm_compute. discriminate.
Defined.

(** C3, as it is stated, fails on a disabled entry whose name carries
    white space: the call replaces [" foo "] by ["foo"] in the entry
    before it looks at the flag. *)
Lemma AddCommand_disabled_trims_name :
  heap sampleWorld !! 3%positive = Some (entry " foo " ["f"] true) /\
  exists w' e,
    AddCommand 3%positive sampleWorld = Ok 3%positive w' /\
    heap w' !! 3%positive = Some e /\
    Cmd.Name e = "foo" /\
    Cmd.Name e <> " foo ".
Proof.
  split; [reflexivity |].
  exists (skipped 3%positive (entry " foo " ["f"] true) sampleWorld),
    (trimmed (entry " foo " ["f"] true)).
  split.
  { apply AddCommand_disabled; [reflexivity | by vm_compute | reflexivity]. }
  split; [reflexivity |]. split; [reflexivity | by vm_compute].
Qed.

(** C4.  For an accepted entry, [Module] becomes the part of the name
    before its first colon, or the empty string when the name has no colon,
    and the bucket of [moduleCommands] for that module holds the entry
    under its name. *)
Theorem AddCommand_sets_module (c : loc) (w : World) (x : Command) :
  ready (app w) ->
  heap w !! c = Some x ->
  TrimSpace (Cmd.Name x) <> "" ->
  HasPrefix (TrimSpace (Cmd.Name x)) ":" = false ->
  Cmd.Disabled x = false ->
  exists w' e bucket,
    AddCommand c w = Ok c w' /\
    heap w' !! c = Some e /\
    Cmd.Name e = TrimSpace (Cmd.Name x) /\
    (contains_byte colon (Cmd.Name e) = true ->
     contains_byte colon (Cmd.Module_ e) = false /\
     exists rest, Cmd.Name e = Cmd.Module_ e ++ ":" ++ rest) /\
    (contains_byte colon (Cmd.Name e) = false -> Cmd.Module_ e = "") /\
    ModuleCommands w' !! Cmd.Module_ e = Some bucket /\
    bucket !! Cmd.Name e = Some c.
Proof.
  intros Hr Hx Hne Hp Hd.
  set (name := TrimSpace (Cmd.Name x)).
  exists (registered c x w),
    (Cmd.mk name (module_of name) (Cmd.Aliases x) (Cmd.Disabled x) theApp),
    (<[name := c]>
       (default ∅ (ModuleCommands w !! module_of name))).
  split; [exact (AddCommand_accept c w x Hx Hne Hd Hp Hr) |].
  unfold registered, ModuleCommands. cbn. fold name.
  rewrite !lookup_insert_eq.
  split; [done |]. split; [done |]. split; [| split; [| done]].
  - intros Hc. destruct (split_at_colon _ Hc) as (m & rest & E & Hm).
    rewrite E, (module_of_prefix _ _ Hm). split; [done |]. by exists rest.
  - apply module_of_no_colon.
Qed.

Lemma AddCommand_sets_module_witness :
  exists w' e bucket,
    AddCommand 1%positive sampleWorld = Ok 1%positive w' /\
    heap w' !! 1%positive = Some e /\
    Cmd.Name e = "mod:cmd" /\
    (contains_byte colon (Cmd.Name e) = true ->
     contains_byte colon (Cmd.Module_ e) = false /\
     exists rest, Cmd.Name e = Cmd.Module_ e ++ ":" ++ rest) /\
    (contains_byte colon (Cmd.Name e) = false -> Cmd.Module_ e = "") /\
    ModuleCommands w' !! Cmd.Module_ e = Some bucket /\
    bucket !! Cmd.Name e = Some 1%positive.
Proof.
  apply (AddCommand_sets_module 1%positive sampleWorld
           (entry " mod:cmd " ["m"; "mc"] false)).
  - exact ready_sampleWorld.
  - reflexivity.
  - vm_compute. discriminate.
  - reflexivity.
  - reflexivity.
Defined.

(** C10.  A disabled entry whose trimmed name begins with a colon is
    skipped and returned, without a fatal error, because the flag is
    looked at before the colon; the same name on an enabled entry ends the
    process. *)
Theorem AddCommand_disabled_leading_colon_skipped (c : loc) (w : World)
    (x : Command) :
  heap w !! c = Some x ->
  TrimSpace (Cmd.Name x) <> "" ->
  HasPrefix (TrimSpace (Cmd.Name x)) ":" = true ->
  (Cmd.Disabled x = true ->
   exists w', AddCommand c w = Ok c w' /\ app w' = app w) /\
  (Cmd.Disabled x = false ->
   exists w',
     AddCommand c w =
     Fatal "The added command module can not be empty." w').
Proof.
  intros Hx Hne Hp. split; intros Hd.
  - exists (skipped c x w).
    split; [exact (AddCommand_disabled c w x Hx Hne Hd) | done].
  - exists (aborted c x w). exact (AddCommand_colon c w x Hx Hd Hp).
Qed.

Lemma AddCommand_disabled_leading_colon_skipped_witness :
  (exists w',
     AddCommand 2%positive sampleWorld = Ok 2%positive w' /\
     app w' = app sampleWorld) /\
  (exists w',
     AddCommand 6%positive sampleWorld =
     Fatal "The added command module can not be empty." w').
Proof.
  split.
  - apply (AddCommand_disabled_leading_colon_skipped 2%positive sampleWorld
             (entry ":foo" [] true)); [reflexivity | | reflexivity..].
    vm_compute. discriminate.
  - apply (AddCommand_disabled_leading_colon_skipped 6%positive sampleWorld
             (entry ":foo" [] false)); [reflexivity | | reflexivity..].
    vm_compute. discriminate.
Defined.

(** ** The running maximum of the name lengths *)

(** C5.  [NewApp] starts [nameMaxLength] at 12; no operation of the
    catalog decreases it, however the operation ends; and in any run of
    operations on an application made by [NewApp], once a call of
    [AddCommand] has registered an entry, [nameMaxLength] stays at least
    12 and at least the length of the name registered. *)
Theorem nameMaxLength_monotone :
  (forall w, exists w',
      NewApp [] w = Ok tt w' /\ nameMaxLength (app w') = 12) /\
  (forall op w,
      nameMaxLength (app w) <= nameMaxLength (app (final (run_op op w)))) /\
  (forall w0 before c after w1 w2 wf e,
      run_ops before (final (NewApp [] w0)) = Ok tt w1 ->
      AddCommand c w1 = Ok c w2 ->
      heap w2 !! c = Some e ->
      Cmd.Disabled e = false ->
      run_ops after w2 = Ok tt wf ->
      12 <= nameMaxLength (app wf) /\
      len (Cmd.Name e) <= nameMaxLength (app wf)).
Proof.
  split; [| split].
  - intros w. eexists. split; [apply NewApp_eq | reflexivity].
  - intros op w. apply keeps_run_op.
  - intros w0 before c after w1 w2 wf e Hb Hc He Hd Ha.
    rewrite NewApp_eq in Hb. cbn [final] in Hb.
    match type of Hb with
    | run_ops _ ?w = _ => pose proof (keeps_run_ops before w) as [Hb1 Hb2]
    end.
    rewrite Hb in Hb1, Hb2. cbn in Hb1. cbn [final app] in Hb2.
    specialize (Hb2 ready_initialApp).
    pose proof (keeps_run_ops after w2) as [Ha1 _].
    rewrite Ha in Ha1. cbn [final] in Ha1.
    destruct (AddCommand_returns_inv c c w1 w2 Hb2 Hc)
      as (x & Hx & _ & Hne & [[Hdx ->] | (Hdx & Hp & ->)]).
    + unfold skipped, aborted in He. cbn in He.
      rewrite lookup_insert_eq in He. injection He as <-.
      cbn in Hd. congruence.
    + unfold registered in He, Ha1. cbn in He, Ha1.
      rewrite lookup_insert_eq in He. injection He as <-. cbn. lia.
Qed.

Lemma nameMaxLength_monotone_witness :
  12 <= nameMaxLength
          (app (final (run_ops [OpAddCommand 1%positive;
                                OpAddCommand 7%positive;
                                OpAddCommand 2%positive] sampleWorld))) /\
  len "a-rather-long-command-name" <=
  nameMaxLength
    (app (final (run_ops [OpAddCommand 1%positive;
                          OpAddCommand 7%positive;
                          OpAddCommand 2%positive] sampleWorld))).
Proof.
  apply (proj2 (proj2 nameMaxLength_monotone)
           (startWorld sampleHeap VerbDebug)
           [OpAddCommand 1%positive] 7%positive [OpAddCommand 2%positive]
           (final (run_ops [OpAddCommand 1%positive] sampleWorld))
           (final (AddCommand 7%positive
                     (final (run_ops [OpAddCommand 1%positive]
                               sampleWorld))))
           _
           (Cmd.mk "a-rather-long-command-name" "" [] false theApp)).
  - vm_compute. reflexivity.
  - vm_compute. reflexivity.
  - vm_compute. reflexivity.
  - reflexivity.
  - vm_compute. reflexivity.
Defined.

(** C6.  When two accepted entries have the same name, the second
    registration replaces the first: [Commands()] maps the name to the
    second entry, which carries its own fields, and neither [Commands()]
    nor [Names()] gains a key. *)
Theorem AddCommand_same_name_replaces (c1 c2 : loc) (w w1 : World)
    (x1 x2 : Command) :
  ready (app w) ->
  heap w !! c1 = Some x1 ->
  Cmd.Disabled x1 = false ->
  TrimSpace (Cmd.Name x1) <> "" ->
  HasPrefix (TrimSpace (Cmd.Name x1)) ":" = false ->
  AddCommand c1 w = Ok c1 w1 ->
  heap w1 !! c2 = Some x2 ->
  Cmd.Disabled x2 = false ->
  TrimSpace (Cmd.Name x2) = TrimSpace (Cmd.Name x1) ->
  exists w2 e,
    AddCommand c2 w1 = Ok c2 w2 /\
    Commands w1 !! TrimSpace (Cmd.Name x1) = Some c1 /\
    Commands w2 !! TrimSpace (Cmd.Name x1) = Some c2 /\
    Names w2 !! TrimSpace (Cmd.Name x1)
      = Some (len (TrimSpace (Cmd.Name x1))) /\
    heap w2 !! c2 = Some e /\
    Cmd.Name e = TrimSpace (Cmd.Name x1) /\
    Cmd.Aliases e = Cmd.Aliases x2 /\
    Cmd.Disabled e = false /\
    dom (Commands w2) = dom (Commands w1) /\
    size (Commands w2) = size (Commands w1) /\
    dom (Names w2) = dom (Names w1) /\
    size (Names w2) = size (Names w1) /\
    (forall k, k <> TrimSpace (Cmd.Name x1) ->
               Commands w2 !! k = Commands w1 !! k).
Proof.
  intros Hr Hx1 Hd1 Hne1 Hp1 H1 Hx2 Hd2 Hn.
  rewrite (AddCommand_accept c1 w x1 Hx1 Hne1 Hd1 Hp1 Hr) in H1.
  injection H1 as <-.
  assert (Hne2 : TrimSpace (Cmd.Name x2) <> "") by congruence.
  assert (Hp2 : HasPrefix (TrimSpace (Cmd.Name x2)) ":" = false)
    by congruence.
  exists (registered c2 x2 (registered c1 x1 w)),
    (Cmd.mk (TrimSpace (Cmd.Name x2)) (module_of (TrimSpace (Cmd.Name x2)))
       (Cmd.Aliases x2) (Cmd.Disabled x2) theApp).
  split.
  { exact (AddCommand_accept c2 _ x2 Hx2 Hne2 Hd2 Hp2
             (ready_registered c1 x1 w)). }
  unfold registered, Commands, Names. cbn. rewrite Hn.
  set (name := TrimSpace (Cmd.Name x1)).
  rewrite !lookup_insert_eq, !insert_insert_eq.
  repeat split; try done.
  - by rewrite !dom_insert_L.
  - by rewrite !map_size_insert.
  - intros k Hk. by rewrite !lookup_insert_ne.
Qed.

Lemma AddCommand_same_name_replaces_witness :
  exists w2 e,
    AddCommand 4%positive
      (final (AddCommand 1%positive sampleWorld)) = Ok 4%positive w2 /\
    Commands (final (AddCommand 1%positive sampleWorld))
      !! TrimSpace " mod:cmd " = Some 1%positive /\
    Commands w2 !! TrimSpace " mod:cmd " = Some 4%positive /\
    Names w2 !! TrimSpace " mod:cmd " = Some (len (TrimSpace " mod:cmd ")) /\
    heap w2 !! 4%positive = Some e /\
    Cmd.Name e = TrimSpace " mod:cmd " /\
    Cmd.Aliases e = ["other"] /\
    Cmd.Disabled e = false /\
    dom (Commands w2)
      = dom (Commands (final (AddCommand 1%positive sampleWorld))) /\
    size (Commands w2)
      = size (Commands (final (AddCommand 1%positive sampleWorld))) /\
    dom (Names w2)
      = dom (Names (final (AddCommand 1%positive sampleWorld))) /\
    size (Names w2)
      = size (Names (final (AddCommand 1%positive sampleWorld))) /\
    (forall k, k <> TrimSpace " mod:cmd " ->
               Commands w2 !! k =
               Commands (final (AddCommand 1%positive sampleWorld)) !! k).
Proof.
  apply (AddCommand_same_name_replaces 1%positive 4%positive sampleWorld
           (final (AddCommand 1%positive sampleWorld))
           (entry " mod:cmd " ["m"; "mc"] false)
           (entry "mod:cmd" ["other"] false)).
  - exact ready_sampleWorld.
  - reflexivity.
  - reflexivity.
  - vm_compute. discriminate.
  - reflexivity.
  - vm_compute. reflexivity.
  - vm_compute. reflexivity.
  - reflexivity.
  - reflexivity.
Defined.

(** ** Aliases *)

Lemma with_aliases_lookup (name : string) (als : list string)
    (m : gmap string string) (a : string) :
  with_aliases name als m !! a =
  if decide (a ∈ als) then Some name else m !! a.
Proof.
  unfold with_aliases. revert m.
  induction als as [|al als IH]; intros m; cbn [foldl].
  - case_decide as H; [by apply elem_of_nil in H | done].
  - rewrite IH. destruct (decide (a = al)) as [-> | Hne].
    + rewrite lookup_insert_eq. rewrite (decide_True _ _ (list_elem_of_here _ _)).
      by case_decide.
    + rewrite lookup_insert_ne by done.
      destruct (decide (a ∈ als)) as [Hin | Hnin].
      * by rewrite decide_True by (by apply list_elem_of_further).
      * rewrite decide_False; [done |].
        intros [? | ?]%elem_of_cons; done.
Qed.

(** C7.  [AddAliases] maps every alias of the list to the canonical name,
    whatever the alias was mapped to before, leaves the other aliases
    alone, and reports nothing.  From any state, after
    [AddAliases("foo", ["f", "fo"])] and [AddAliases("bar", ["f"])] the
    alias ["f"] is mapped to ["bar"] and ["fo"] to ["foo"]. *)
Theorem AddAliases_last_writer_wins (canonicalName : string)
    (aliasList : list string) (w : World) :
  (exists w',
      AddAliases canonicalName aliasList w = Ok tt w' /\
      out w' = out w /\
      forall alias,
        aliases (app w') !! alias =
        if decide (alias ∈ aliasList) then Some canonicalName
        else aliases (app w) !! alias) /\
  (exists w1 w2,
      AddAliases "foo" ["f"; "fo"] w = Ok tt w1 /\
      AddAliases "bar" ["f"] w1 = Ok tt w2 /\
      aliases (app w2) !! "f" = Some "bar" /\
      aliases (app w2) !! "fo" = Some "foo" /\
      out w2 = out w).
Proof.
  split.
  - eexists. split; [apply AddAliases_eq |]. split; [done |].
    intros alias. cbn. apply with_aliases_lookup.
  - eexists _, _. split; [apply AddAliases_eq |].
    split; [apply AddAliases_eq |]. cbn. repeat split.
    + apply lookup_insert_eq.
    + rewrite lookup_insert_ne by done. apply lookup_insert_eq.
Qed.

(** ** Hooks *)

(** C8.  [On] appends the handler to those of the event.  [fireEvent]
    calls the handlers of the event, each once, in the order of
    registration, and changes neither the application nor the commands;
    with no handler for the event nothing is called.  After [On("init",
    H1)] and [On("init", H2)], firing ["init"] calls the handlers
    registered before, then [H1], then [H2]. *)
Theorem fireEvent_in_registration_order (name : string)
    (handler H1 H2 : HookFunc) (data : option string) (w : World) :
  (exists w',
      On name handler w = Ok tt w' /\
      forall n,
        handlers (app w') n =
        if decide (name = n) then (handlers (app w) n ++ [handler])%list
        else handlers (app w) n) /\
  (exists w',
      fireEvent name data w = Ok tt w' /\
      app w' = app w /\
      heap w' = heap w /\
      invocations (out w') =
      (invocations (out w)
       ++ map (fun h => (h, data)) (handlers (app w) name))%list /\
      (handlers (app w) name = [] ->
       invocations (out w') = invocations (out w) /\
       ((VerbDebug <=? verbose w)%N = false -> w' = w))) /\
  (exists w1 w2 w3,
      On "init" H1 w = Ok tt w1 /\
      On "init" H2 w1 = Ok tt w2 /\
      fireEvent "init" data w2 = Ok tt w3 /\
      invocations (out w3) =
      (invocations (out w)
       ++ map (fun h => (h, data)) (handlers (app w) "init")
       ++ [(H1, data); (H2, data)])%list).
Proof.
  split; [| split].
  - eexists. split; [apply On_eq |]. intros n. cbn [app with_app].
    rewrite handlers_insert. by case_decide; subst.
  - eexists. split; [apply fireEvent_eq |]. cbn.
    rewrite !invocations_app, invocations_logged, invocations_Invoked.
    split; [done |]. split; [done |]. split; [done |].
    intros Hnone. rewrite Hnone. cbn [map]. rewrite !app_nil_r.
    split; [done |]. intros Hv. unfold logged. rewrite Hv.
    rewrite app_nil_r. by destruct w.
  - eexists _, _, _. split; [apply On_eq |]. split; [apply On_eq |].
    split; [apply fireEvent_eq |]. cbn [app with_app with_out out].
    rewrite !handlers_insert. cbn [app]. rewrite !decide_True by done.
    rewrite !invocations_app, !invocations_logged, invocations_Invoked.
    rewrite !map_app, !app_nil_r, <- !app_assoc. reflexivity.
Qed.

Lemma fireEvent_in_registration_order_witness :
  exists w',
    fireEvent "before" None sampleWorld = Ok tt w' /\
    invocations (out w') = invocations (out sampleWorld) /\
    (exists w1 w2 w3,
        On "init" (hook 1) sampleWorld = Ok tt w1 /\
        On "init" (hook 2) w1 = Ok tt w2 /\
        fireEvent "init" None w2 = Ok tt w3 /\
        invocations (out w3) = [(hook 1, None); (hook 2, None)]).
Proof.
  destruct (fireEvent_in_registration_order "before" defaultErrHandler
              (hook 1) (hook 2) None sampleWorld)
    as (_ & (w' & Hfire & _ & _ & _ & Hnone) & Hinit).
  exists w'. split; [exact Hfire |].
  split; [exact (proj1 (Hnone eq_refl)) | exact Hinit].
Defined.


(** ** Trimming twice *)

Lemma trimLeading_fixed (fwd : bool) (s : string) :
  leads fwd s = false -> trimLeading fwd s = s.
Proof.
  destruct s as [|a1 [|a2 [|a3 s3]]]; cbn [leads trimLeading]; [done | ..].
  - rewrite orb_false_r. by intros ->.
  - rewrite orb_false_r. intros [-> ->]%orb_false_elim. done.
  - intros [-> [-> ->]%orb_false_elim]%orb_false_elim. done.
Qed.

Lemma trimLeading_leads (fwd : bool) (n : nat) (s : string) :
  (String.length s <= n)%nat -> leads fwd (trimLeading fwd s) = false.
Proof.
  revert s. induction n as [|n IH]; intros s Hn.
  { destruct s; [done | cbn in Hn; lia]. }
  destruct s as [|a1 s1]; [done |]. cbn [String.length] in Hn.
  cbn [trimLeading].
  destruct (space1 a1) eqn:E1; [apply IH; lia |].
  destruct s1 as [|a2 s2]; [cbn [leads]; by rewrite E1 |].
  cbn [String.length] in Hn.
  destruct (if fwd then space2 a1 a2 else space2 a2 a1) eqn:E2;
    [apply IH; lia |].
  destruct s2 as [|a3 s3]; [cbn [leads]; by rewrite E1, E2 |].
  cbn [String.length] in Hn.
  destruct (if fwd then space3 a1 a2 a3 else space3 a3 a2 a1) eqn:E3;
    [apply IH; lia |].
  cbn [leads]. by rewrite E1, E2, E3.
Qed.

Lemma trimLeading_suffix (fwd : bool) (n : nat) (s : string) :
  (String.length s <= n)%nat -> exists q, s = q ++ trimLeading fwd s.
Proof.
  revert s. induction n as [|n IH]; intros s Hn.
  { destruct s; [by exists "" | cbn in Hn; lia]. }
  destruct s as [|a1 s1]; [by exists "" |]. cbn [String.length] in Hn.
  cbn [trimLeading].
  destruct (space1 a1).
  { destruct (IH s1) as [q Hq]; [lia |].
    exists (String a1 q). rewrite append_cons. by rewrite <- Hq. }
  destruct s1 as [|a2 s2]; [by exists "" |].
  cbn [String.length] in Hn.
  destruct (if fwd then space2 a1 a2 else space2 a2 a1).
  { destruct (IH s2) as [q Hq]; [lia |].
    exists (String a1 (String a2 q)). rewrite !append_cons.
    by rewrite <- Hq. }
  destruct s2 as [|a3 s3]; [by exists "" |].
  cbn [String.length] in Hn.
  destruct (if fwd then space3 a1 a2 a3 else space3 a3 a2 a1);
    [| by exists ""].
  destruct (IH s3) as [q Hq]; [lia |].
  exists (String a1 (String a2 (String a3 q))). rewrite !append_cons.
  by rewrite <- Hq.
Qed.

Lemma leads_prefix (fwd : bool) (p u : string) :
  leads fwd (p ++ u) = false -> p = "" \/ leads fwd p = false.
Proof.
  intros H. destruct p as [|a1 [|a2 [|a3 p3]]]; [by left | right..].
  - rewrite append_cons, append_nil_l in H. cbn [leads] in *.
    apply orb_false_elim in H as [-> _]. done.
  - rewrite !append_cons, append_nil_l in H. cbn [leads] in *.
    apply orb_false_elim in H as [-> H].
    destruct u; [exact H |]. apply orb_false_elim in H as [-> _]. done.
  - rewrite !append_cons in H. exact H.
Qed.

Lemma rev_involutive (s : string) : rev (rev s) = s.
Proof.
  induction s as [|a s IH]; [done |].
  change (String a s) with (String a "" ++ s) at 1.
  rewrite rev_app, rev_app, IH. reflexivity.
Qed.

(** [strings.TrimSpace] has nothing left to remove from its result. *)
Lemma TrimSpace_idempotent (s : string) :
  TrimSpace (TrimSpace s) = TrimSpace s.
Proof.
  unfold TrimSpace, TrimRight, TrimLeft.
  set (t := trimLeading true s).
  set (r := trimLeading false (rev t)).
  assert (Ht : leads true t = false) by (apply (trimLeading_leads _ _ _ (le_n _))).
  assert (Hr : leads false r = false) by (apply (trimLeading_leads _ _ _ (le_n _))).
  destruct (trimLeading_suffix false _ (rev t) (le_n _)) as [q Hq].
  fold r in Hq.
  assert (Et : t = rev r ++ rev q).
  { rewrite <- (rev_involutive t), Hq, rev_app. reflexivity. }
  assert (Hp : trimLeading true (rev r) = rev r).
  { rewrite Et in Ht. destruct (leads_prefix _ _ _ Ht) as [-> | H]; [done |].
    by apply trimLeading_fixed. }
  rewrite Hp, rev_involutive. by rewrite (trimLeading_fixed _ _ Hr).
Qed.

(** ** [AddCommand] on a catalog that is not ready *)

Lemma AddCommand_nil_map (c : loc) (w : World) (x : Command) :
  heap w !! c = Some x ->
  TrimSpace (Cmd.Name x) <> "" ->
  Cmd.Disabled x = false ->
  HasPrefix (TrimSpace (Cmd.Name x)) ":" = false ->
  ~ ready (app w) ->
  AddCommand c w = Panic nil_map_msg (panicked c x w).
Proof.
  intros Hx Hne Hd Hp Hnr.
  destruct w as [h a v o]. destruct a. cbn in Hx.
  unfold AddCommand, panicked, moduled, trimmed. do 3 step. norm.
  apply String.eqb_neq in Hne. rewrite Hne. unfold when at 1. step.
  unfold IsDisabled. step. norm. rewrite Hd.
  step. norm.
  assert (Hi : (Index (TrimSpace (Cmd.Name x)) ":" =? 0) = false).
  { apply Z.eqb_neq. intros E. apply Index_zero_iff in E. congruence. }
  rewrite Hi. unfold when at 1. step.
  erewrite bind_set_module by (heap_lookup || reflexivity).
  norm. do 3 step. norm.
  destruct names0 as [ns|]; [| by rewrite insert_insert_eq].
  rewrite bind_assign. do 3 step. norm.
  destruct commands0 as [cs|]; [| by rewrite insert_insert_eq].
  rewrite bind_assign. do 2 step. rewrite bind_max. norm. do 2 step. norm.
  destruct moduleCommands0 as [ms|].
  { exfalso. apply Hnr. repeat split; by eexists. }
  unfold has_key, when. cbn [negb].
  rewrite bind_assoc. step. rewrite bind_assoc. step. norm.
  rewrite insert_insert_eq. reflexivity.
Qed.

Lemma AddCommand_nil_deref (c : loc) (w : World) :
  heap w !! c = None -> AddCommand c w = Panic nil_deref_msg w.
Proof.
  intros Hx. unfold AddCommand.
  unfold bind at 1, getField at 1, bind at 1, deref at 1.
  by rewrite Hx.
Qed.

(** ** The outcomes of [AddCommand] *)

(** Every way [AddCommand] can end on an entry, with the state it
    leaves. *)
Lemma AddCommand_cases (c : loc) (w : World) (x : Command) :
  heap w !! c = Some x ->
  (TrimSpace (Cmd.Name x) = "" /\
   AddCommand c w =
   Fatal "The added command name can not be empty." (aborted c x w)) \/
  (TrimSpace (Cmd.Name x) <> "" /\ Cmd.Disabled x = true /\
   AddCommand c w = Ok c (skipped c x w)) \/
  (TrimSpace (Cmd.Name x) <> "" /\ Cmd.Disabled x = false /\
   HasPrefix (TrimSpace (Cmd.Name x)) ":" = true /\
   AddCommand c w =
   Fatal "The added command module can not be empty." (aborted c x w)) \/
  (TrimSpace (Cmd.Name x) <> "" /\ Cmd.Disabled x = false /\
   HasPrefix (TrimSpace (Cmd.Name x)) ":" = false /\ ~ ready (app w) /\
   AddCommand c w = Panic nil_map_msg (panicked c x w)) \/
  (TrimSpace (Cmd.Name x) <> "" /\ Cmd.Disabled x = false /\
   HasPrefix (TrimSpace (Cmd.Name x)) ":" = false /\ ready (app w) /\
   AddCommand c w = Ok c (registered c x w)).
Proof.
  intros Hx.
  destruct (decide (TrimSpace (Cmd.Name x) = "")) as [He | Hne].
  { left. split; [done |]. by apply AddCommand_empty. }
  right. destruct (Cmd.Disabled x) eqn:Hd.
  { left. do 2 (split; [done |]). by apply AddCommand_disabled. }
  right. destruct (HasPrefix (TrimSpace (Cmd.Name x)) ":") eqn:Hp.
  { left. do 3 (split; [done |]). by apply AddCommand_colon. }
  right. destruct (decide (ready (app w))) as [Hr | Hnr].
  - right. do 4 (split; [done |]). by apply AddCommand_accept.
  - left. do 4 (split; [done |]). by apply AddCommand_nil_map.
Qed.

Ltac contra :=
  repeat match goal with
         | H : _ /\ _ |- _ => destruct H
         | H : exists _, _ |- _ => destruct H
         | H : _ \/ _ |- _ => destruct H
         | H : Some _ = Some _ |- _ => injection H as <-
         | H : Some _ = None |- _ => discriminate H
         end;
  first [ congruence | contradiction ].

Ltac outcome_iff :=
  split;
  [ intros (? & ? & Heq); first [ discriminate Heq | eauto 10 ]
  | intros HP; first [ by eauto | exfalso; contra ] ].

Ltac outcome_parts :=
  split; [outcome_iff |];
  split; [intros r w' Heq; first [discriminate Heq | by injection Heq] |];
  split; outcome_iff.

(** X1.  [AddCommand] returns exactly when the entry is not nil, its
    trimmed name is not empty, and it is disabled or else its name has no
    leading colon and the three maps are allocated; it then returns the
    pointer it was given.  It ends the process exactly on an empty name or
    on a leading colon of an enabled entry, and panics exactly on a nil
    entry or on an acceptable entry when one of the maps is nil. *)
Theorem AddCommand_outcome (c : loc) (w : World) :
  ((exists r w', AddCommand c w = Ok r w') <->
   exists x, heap w !! c = Some x /\ TrimSpace (Cmd.Name x) <> "" /\
     (Cmd.Disabled x = true \/
      (HasPrefix (TrimSpace (Cmd.Name x)) ":" = false /\ ready (app w)))) /\
  (forall r w', AddCommand c w = Ok r w' -> r = c) /\
  ((exists msg w', AddCommand c w = Fatal msg w') <->
   exists x, heap w !! c = Some x /\
     (TrimSpace (Cmd.Name x) = "" \/
      (Cmd.Disabled x = false /\
       HasPrefix (TrimSpace (Cmd.Name x)) ":" = true))) /\
  ((exists msg w', AddCommand c w = Panic msg w') <->
   heap w !! c = None \/
   exists x, heap w !! c = Some x /\ TrimSpace (Cmd.Name x) <> "" /\
     Cmd.Disabled x = false /\
     HasPrefix (TrimSpace (Cmd.Name x)) ":" = false /\ ~ ready (app w)).
Proof.
  destruct (heap w !! c) as [x|] eqn:Hx.
  - destruct (AddCommand_cases c w x Hx)
      as [(He & E) | [(Hne & Hd & E) | [(Hne & Hd & Hp & E)
          | [(Hne & Hd & Hp & Hr & E) | (Hne & Hd & Hp & Hr & E)]]]];
      rewrite E; outcome_parts.
  - rewrite (AddCommand_nil_deref c w Hx). outcome_parts.
Qed.

Lemma trimmed_fixed (x : Command) :
  TrimSpace (Cmd.Name x) = Cmd.Name x -> trimmed x = x.
Proof. destruct x. unfold trimmed. cbn. by intros ->. Qed.

Lemma heap_panicked (c : loc) (x : Command) (w : World) :
  heap (panicked c x w) = <[c := moduled x]> (heap w).
Proof.
  unfold panicked. by destruct (names (app w)), (commands (app w)).
Qed.

(** X2.  [AddCommand] leaves every other entry alone, however it ends,
    and of its own entry it keeps the aliases and the disabled flag: only
    [Name], which becomes the trimmed name, [Module] and the back-reference
    can change. *)
Theorem AddCommand_touches_only_its_entry (c : loc) (w : World) :
  (forall c', c' <> c ->
     heap (final (AddCommand c w)) !! c' = heap w !! c') /\
  (heap w !! c = None -> heap (final (AddCommand c w)) !! c = None) /\
  (forall x, heap w !! c = Some x ->
     exists e,
       heap (final (AddCommand c w)) !! c = Some e /\
       Cmd.Name e = TrimSpace (Cmd.Name x) /\
       Cmd.Aliases e = Cmd.Aliases x /\
       Cmd.Disabled e = Cmd.Disabled x).
Proof.
  destruct (heap w !! c) as [x|] eqn:Hx.
  - assert (H : exists e,
               heap (final (AddCommand c w)) = <[c := e]> (heap w) /\
               Cmd.Name e = TrimSpace (Cmd.Name x) /\
               Cmd.Aliases e = Cmd.Aliases x /\
               Cmd.Disabled e = Cmd.Disabled x).
    { destruct (AddCommand_cases c w x Hx)
        as [(He & E) | [(Hne & Hd & E) | [(Hne & Hd & Hp & E)
            | [(Hne & Hd & Hp & Hr & E) | (Hne & Hd & Hp & Hr & E)]]]];
        rewrite E; cbn [final].
      - by exists (trimmed x).
      - by exists (trimmed x).
      - by exists (trimmed x).
      - exists (moduled x). by rewrite heap_panicked.
      - eexists. split; [reflexivity | done]. }
    destruct H as (e & -> & Hn & Ha & Hd).
    split; [| split; [done |]].
    + intros c' Hc'. by rewrite lookup_insert_ne.
    + intros y [= <-]. exists e. by rewrite lookup_insert_eq.
  - rewrite (AddCommand_nil_deref c w Hx). cbn [final].
    split; [done | split; [done |]]. intros x [=].
Qed.

Lemma AddCommand_touches_only_its_entry_witness :
  exists e,
    heap (final (AddCommand 1%positive sampleWorld)) !! 1%positive
      = Some e /\
    Cmd.Name e = TrimSpace " mod:cmd " /\
    Cmd.Aliases e = ["m"; "mc"] /\
    Cmd.Disabled e = false.
Proof.
  apply (proj2 (proj2 (AddCommand_touches_only_its_entry
                         1%positive sampleWorld))
           (entry " mod:cmd " ["m"; "mc"] false)).
  reflexivity.
Defined.



Lemma Initialize_frame (w : World) :
  exists w',
    Initialize w = Ok tt w' /\
    names (app w') = Some ∅ /\
    Names w' = ∅ /\
    commands (app w') = commands (app w) /\
    moduleCommands (app w') = moduleCommands (app w) /\
    aliases (app w') = aliases (app w) /\
    nameMaxLength (app w') = nameMaxLength (app w) /\
    heap w' = heap w.
Proof.
  eexists. split; [rewrite Initialize_eq; apply fireEvent_eq |]. done.
Qed.


(** ** Registering again, and what a registration adds *)

Lemma with_aliases_idempotent (name : string) (als : list string)
    (m : gmap string string) :
  with_aliases name als (with_aliases name als m) = with_aliases name als m.
Proof.
  apply map_eq. intros a. rewrite !with_aliases_lookup. by case_decide.
Qed.

Lemma registered_twice (c : loc) (x : Command) (w : World) :
  ready (app w) ->
  let e := Cmd.mk (TrimSpace (Cmd.Name x))
             (module_of (TrimSpace (Cmd.Name x))) (Cmd.Aliases x)
             (Cmd.Disabled x) theApp in
  app (registered c e (registered c x w)) = app (registered c x w) /\
  heap (registered c e (registered c x w)) = heap (registered c x w).
Proof.
  intros ([ns Hn] & [cs Hc] & [ms Hm]) e. subst e.
  unfold registered. cbv zeta. norm. rewrite Hn, Hc, Hm.
  cbn [default from_option id]. rewrite !TrimSpace_idempotent.
  set (name := TrimSpace (Cmd.Name x)).
  rewrite !lookup_insert_eq. cbn [default from_option id].
  rewrite !insert_insert_eq.
  rewrite with_aliases_idempotent.
  replace (Z.max (Z.max (nameMaxLength (app w)) (len name)) (len name))
    with (Z.max (nameMaxLength (app w)) (len name)) by lia.
  done.
Qed.

(** X5.  Registering an accepted entry a second time changes nothing: the
    application and the entries are what the first registration left. *)
Theorem AddCommand_idempotent (c : loc) (w w1 : World) (x : Command) :
  ready (app w) ->
  heap w !! c = Some x ->
  TrimSpace (Cmd.Name x) <> "" ->
  HasPrefix (TrimSpace (Cmd.Name x)) ":" = false ->
  Cmd.Disabled x = false ->
  AddCommand c w = Ok c w1 ->
  exists w2,
    AddCommand c w1 = Ok c w2 /\ app w2 = app w1 /\ heap w2 = heap w1.
Proof.
  intros Hr Hx Hne Hp Hd H1.
  rewrite (AddCommand_accept c w x Hx Hne Hd Hp Hr) in H1.
  injection H1 as <-.
  set (e := Cmd.mk (TrimSpace (Cmd.Name x))
              (module_of (TrimSpace (Cmd.Name x))) (Cmd.Aliases x)
              (Cmd.Disabled x) theApp).
  exists (registered c e (registered c x w)). split.
  - apply AddCommand_accept.
    + unfold registered. cbn [heap]. by rewrite lookup_insert_eq.
    + subst e. cbn [Cmd.Name]. by rewrite TrimSpace_idempotent.
    + done.
    + subst e. cbn [Cmd.Name]. by rewrite TrimSpace_idempotent.
    + apply ready_registered.
  - by apply registered_twice.
Qed.

Lemma AddCommand_idempotent_witness :
  exists w2,
    AddCommand 1%positive (final (AddCommand 1%positive sampleWorld))
      = Ok 1%positive w2 /\
    app w2 = app (final (AddCommand 1%positive sampleWorld)) /\
    heap w2 = heap (final (AddCommand 1%positive sampleWorld)).
Proof.
  apply (AddCommand_idempotent 1%positive sampleWorld
           (final (AddCommand 1%positive sampleWorld))
           (entry " mod:cmd " ["m"; "mc"] false)).
  - exact ready_sampleWorld.
  - reflexivity.
  - vm_compute. discriminate.
  - reflexivity.
  - reflexivity.
  - vm_compute. reflexivity.
Defined.

(** X6.  After an accepted registration every alias of the entry leads,
    through [aliases] and then [Commands()], to the entry itself. *)
Theorem AddCommand_aliases_resolve (c : loc) (w w' : World) (x : Command)
    (alias : string) :
  ready (app w) ->
  heap w !! c = Some x ->
  TrimSpace (Cmd.Name x) <> "" ->
  HasPrefix (TrimSpace (Cmd.Name x)) ":" = false ->
  Cmd.Disabled x = false ->
  AddCommand c w = Ok c w' ->
  alias ∈ Cmd.Aliases x ->
  exists name,
    aliases (app w') !! alias = Some name /\ Commands w' !! name = Some c.
Proof.
  intros Hr Hx Hne Hp Hd H Hin.
  rewrite (AddCommand_accept c w x Hx Hne Hd Hp Hr) in H.
  injection H as <-. exists (TrimSpace (Cmd.Name x)).
  unfold registered, Commands. cbn.
  rewrite with_aliases_lookup, decide_True by done.
  by rewrite lookup_insert_eq.
Qed.

Lemma AddCommand_aliases_resolve_witness :
  exists name,
    aliases (app (final (AddCommand 1%positive sampleWorld))) !! "mc"
      = Some name /\
    Commands (final (AddCommand 1%positive sampleWorld)) !! name
      = Some 1%positive.
Proof.
  apply (AddCommand_aliases_resolve 1%positive sampleWorld
           (final (AddCommand 1%positive sampleWorld))
           (entry " mod:cmd " ["m"; "mc"] false) "mc").
  - exact ready_sampleWorld.
  - reflexivity.
  - vm_compute. discriminate.
  - reflexivity.
  - reflexivity.
  - vm_compute. reflexivity.
  - apply list_elem_of_further, list_elem_of_here.
Defined.

(** X7.  A registration changes no other name: every other key of
    [Commands()] and of [Names()] keeps its value, and a name that was not
    registered before adds exactly one key to each. *)
Theorem AddCommand_adds_one_name (c : loc) (w w' : World) (x : Command) :
  ready (app w) ->
  heap w !! c = Some x ->
  TrimSpace (Cmd.Name x) <> "" ->
  HasPrefix (TrimSpace (Cmd.Name x)) ":" = false ->
  Cmd.Disabled x = false ->
  AddCommand c w = Ok c w' ->
  (forall k, k <> TrimSpace (Cmd.Name x) ->
     Commands w' !! k = Commands w !! k /\ Names w' !! k = Names w !! k) /\
  (Commands w !! TrimSpace (Cmd.Name x) = None ->
   size (Commands w') = S (size (Commands w))) /\
  (Names w !! TrimSpace (Cmd.Name x) = None ->
   size (Names w') = S (size (Names w))).
Proof.
  intros Hr Hx Hne Hp Hd H.
  rewrite (AddCommand_accept c w x Hx Hne Hd Hp Hr) in H.
  injection H as <-. unfold registered, Commands, Names. cbn.
  split; [| split].
  - intros k Hk. by rewrite !lookup_insert_ne.
  - intros Hnone. by apply map_size_insert_None.
  - intros Hnone. by apply map_size_insert_None.
Qed.

Lemma AddCommand_adds_one_name_witness :
  size (Commands (final (AddCommand 1%positive sampleWorld)))
    = S (size (Commands sampleWorld)) /\
  size (Names (final (AddCommand 1%positive sampleWorld)))
    = S (size (Names sampleWorld)).
Proof.
  destruct (AddCommand_adds_one_name 1%positive sampleWorld
              (final (AddCommand 1%positive sampleWorld))
              (entry " mod:cmd " ["m"; "mc"] false))
    as (_ & Hc & Hn).
  - exact ready_sampleWorld.
  - reflexivity.
  - vm_compute. discriminate.
  - reflexivity.
  - reflexivity.
  - vm_compute. reflexivity.
  - split; [apply Hc | apply Hn]; reflexivity.
Defined.

(** ** [Add]: a sequence of registrations *)

Lemma Add_eq_calls (c : loc) (more : list loc) (w : World) :
  Add c more w = calls (c :: more) w.
Proof.
  unfold Add, calls. cbn [for_range]. unfold bind.
  destruct (AddCommand c w); [| done..]. unfold ret. by destruct more.
Qed.

Lemma bind_ext {A B : Type} (m : M A) (k1 k2 : A -> M B) (w : World) :
  (forall a w', k1 a w' = k2 a w') -> bind m k1 w = bind m k2 w.
Proof. intros H. unfold bind. destruct (m w); [apply H | done..]. Qed.

Lemma for_range_app {A : Type} (l1 l2 : list A) (body : A -> M unit)
    (w : World) :
  for_range (l1 ++ l2) body w =
  bind (for_range l1 body) (fun _ => for_range l2 body) w.
Proof.
  revert w. induction l1 as [|q l1 IH]; intros w; [done |].
  cbn [for_range app]. rewrite bind_assoc. apply bind_ext.
  intros _ w'. apply IH.
Qed.

Lemma calls_app (l1 l2 : list loc) (w : World) :
  calls (l1 ++ l2) w = bind (calls l1) (fun _ => calls l2) w.
Proof. apply for_range_app. Qed.

Lemma settled_AddCommand (q p : loc) (w w' : World) :
  ready (app w) ->
  AddCommand q w = Ok q w' ->
  settled w p \/ p = q ->
  settled w' p.
Proof.
  intros Hr H Hp.
  destruct (AddCommand_returns_inv q q w w' Hr H)
    as (x & Hx & _ & Hne & [[Hd ->] | (Hd & Hc & ->)]).
  - destruct (decide (p = q)) as [-> | Hpq].
    + exists (trimmed x). split; [| by left].
      unfold skipped, aborted. cbn. by rewrite lookup_insert_eq.
    + destruct Hp as [(e & He & Hs) | ?]; [| done].
      exists e. split; [| exact Hs].
      unfold skipped, aborted. cbn. by rewrite lookup_insert_ne.
  - destruct (decide (p = q)) as [-> | Hpq].
    + eexists. split.
      { unfold registered. cbn [heap]. apply lookup_insert_eq. }
      right. cbn [Cmd.Name]. unfold registered, Commands, Names. cbn.
      rewrite !lookup_insert_eq, TrimSpace_idempotent.
      repeat split; [by eexists | lia].
    + destruct Hp as [(e & He & Hs) | ?]; [| done].
      exists e. split.
      { unfold registered. cbn [heap]. by rewrite lookup_insert_ne. }
      destruct Hs as [Hs | (Ht & Hcs & Hns & Hl)]; [by left | right].
      unfold registered, Commands, Names in *. cbn.
      destruct (decide (TrimSpace (Cmd.Name x) = Cmd.Name e)) as [E | E].
      * rewrite E, !lookup_insert_eq. repeat split; [done | by eexists | lia].
      * rewrite !lookup_insert_ne by done. repeat split; [done.. | lia].
Qed.

Lemma calls_settled (l : list loc) (w w' : World) :
  ready (app w) ->
  calls l w = Ok tt w' ->
  ready (app w') /\
  (forall p, settled w p -> settled w' p) /\
  (forall p, p ∈ l -> settled w' p).
Proof.
  revert w. induction l as [|q l IH]; intros w Hr H.
  - injection H as <-. split; [done |]. split; [done |].
    intros p Hp. by apply elem_of_nil in Hp.
  - unfold calls in H. cbn [for_range] in H. rewrite bind_assoc in H.
    unfold bind at 1 in H.
    destruct (AddCommand q w) as [r w1 | |] eqn:E; [| done..].
    rewrite bind_ret in H.
    destruct (AddCommand_returns_inv q r w w1 Hr E) as (_ & _ & -> & _).
    assert (Hr1 : ready (app w1)).
    { pose proof (keeps_AddCommand q w) as [_ K]. rewrite E in K. auto. }
    destruct (IH w1 Hr1 H) as (Hr' & Hold & Hnew).
    split; [done |]. split.
    + intros p Hp. apply Hold.
      apply (settled_AddCommand q p w w1 Hr E). by left.
    + intros p [-> | Hp]%elem_of_cons; [| by apply Hnew].
      apply Hold. apply (settled_AddCommand q q w w1 Hr E). by right.
Qed.

(** X8.  When [Add] returns, every entry it was given has gone through
    [AddCommand]: each enabled one has a trimmed name that is a key of
    [Commands()] and of [Names()], with its length there and within
    [nameMaxLength]. *)
Theorem Add_registers_all (c : loc) (more : list loc) (w w' : World)
    (p : loc) :
  ready (app w) ->
  Add c more w = Ok tt w' ->
  p ∈ c :: more ->
  exists e,
    heap w' !! p = Some e /\
    (Cmd.Disabled e = false ->
     TrimSpace (Cmd.Name e) = Cmd.Name e /\
     is_Some (Commands w' !! Cmd.Name e) /\
     Names w' !! Cmd.Name e = Some (len (Cmd.Name e)) /\
     len (Cmd.Name e) <= nameMaxLength (app w')).
Proof.
  intros Hr H Hp. rewrite Add_eq_calls in H.
  destruct (calls_settled _ _ _ Hr H) as (_ & _ & Hnew).
  destruct (Hnew p Hp) as (e & He & Hs). exists e. split; [done |].
  intros Hd. destruct Hs as [Hs | Hs]; [congruence | done].
Qed.

Lemma Add_registers_all_witness :
  exists e,
    heap (final (Add 1%positive [3%positive; 7%positive] sampleWorld))
      !! 7%positive = Some e /\
    (Cmd.Disabled e = false ->
     TrimSpace (Cmd.Name e) = Cmd.Name e /\
     is_Some (Commands
                (final (Add 1%positive [3%positive; 7%positive]
                          sampleWorld)) !! Cmd.Name e) /\
     Names (final (Add 1%positive [3%positive; 7%positive] sampleWorld))
       !! Cmd.Name e = Some (len (Cmd.Name e)) /\
     len (Cmd.Name e) <=
     nameMaxLength
       (app (final (Add 1%positive [3%positive; 7%positive]
                      sampleWorld)))).
Proof.
  apply (Add_registers_all 1%positive [3%positive; 7%positive] sampleWorld).
  - exact ready_sampleWorld.
  - vm_compute. reflexivity.
  - do 2 apply list_elem_of_further. apply list_elem_of_here.
Defined.

(** X9.  [Add] stops at the first entry on which [AddCommand] does not
    return: it ends as that call does, in the state that call leaves, and
    the entries after it are not looked at. *)
Theorem Add_stops_at_first_failure (c : loc) (more before after : list loc)
    (p : loc) (w w1 w2 : World) (msg : string) :
  c :: more = (before ++ p :: after)%list ->
  calls before w = Ok tt w1 ->
  (AddCommand p w1 = Fatal msg w2 -> Add c more w = Fatal msg w2) /\
  (AddCommand p w1 = Panic msg w2 -> Add c more w = Panic msg w2).
Proof.
  intros Hl Hb.
  assert (E : Add c more w =
              bind (AddCommand p) (fun _ => calls after) w1).
  { rewrite Add_eq_calls, Hl, calls_app. unfold bind at 1. rewrite Hb.
    unfold calls. cbn [for_range]. by rewrite bind_assoc. }
  rewrite E. unfold bind. by split; intros ->.
Qed.

Lemma Add_stops_at_first_failure_witness :
  Add 1%positive [6%positive; 7%positive] sampleWorld =
  Fatal "The added command module can not be empty."
    (final (AddCommand 6%positive
              (final (AddCommand 1%positive sampleWorld)))).
Proof.
  apply (Add_stops_at_first_failure 1%positive [6%positive; 7%positive]
           [1%positive] [7%positive] 6%positive sampleWorld
           (final (AddCommand 1%positive sampleWorld))).
  - reflexivity.
  - vm_compute. reflexivity.
  - vm_compute. reflexivity.
Defined.

(** ** Operations that do not write the catalog *)

Lemma same_catalog_refl (w : World) : same_catalog w w.
Proof. by repeat split. Qed.

Lemma run_op_same_catalog (op : catalog_op) (w : World) :
  writes_catalog op = false ->
  exists w', run_op op w = Ok tt w' /\ same_catalog w w'.
Proof.
  destruct op; cbn [writes_catalog]; intros H; try discriminate H;
    cbn [run_op].
  - unfold SetLogo. destruct style; eexists; (split; [reflexivity |]);
      by repeat split.
  - eexists; split; [reflexivity | by repeat split].
  - eexists; split; [reflexivity | by repeat split].
  - eexists; split; [reflexivity | by repeat split].
  - eexists; split; [reflexivity | by repeat split].
  - eexists; split; [apply On_eq | by repeat split].
  - eexists; split; [apply fireEvent_eq | by repeat split].
  - eexists; split; [reflexivity | by repeat split].
Qed.



(** ** What the operations keep true of the catalog *)

Lemma holds_ret (I : World -> Prop) {A : Type} (a : A) : holds I (ret a).
Proof. by intros w H. Qed.

Lemma holds_bind (I : World -> Prop) {A B : Type} (m : M A)
    (k : A -> M B) :
  holds I m -> (forall a, holds I (k a)) -> holds I (bind m k).
Proof.
  intros Hm Hk w H. unfold bind. specialize (Hm w H).
  destruct (m w) as [a w' | msg w' | msg w']; cbn [final] in *; [| done..].
  by apply Hk.
Qed.

Lemma holds_for_range (I : World -> Prop) {A : Type} (l : list A)
    (body : A -> M unit) :
  (forall x, holds I (body x)) -> holds I (for_range l body).
Proof.
  intros H. induction l as [|x l IH]; cbn [for_range].
  - apply holds_ret.
  - apply holds_bind; [apply H | intros _; exact IH].
Qed.

Lemma catalog_ok_transfer (w w' : World) :
  heap w' = heap w ->
  names (app w') = names (app w) ->
  commands (app w') = commands (app w) ->
  moduleCommands (app w') = moduleCommands (app w) ->
  nameMaxLength (app w') = nameMaxLength (app w) ->
  catalog_ok w -> catalog_ok w'.
Proof.
  intros Hh Hn Hc Hm Hl.
  unfold catalog_ok, ready, max_ok, names_ok, keys_ok, entries_ok,
    modules_ok, Commands, Names, ModuleCommands.
  by rewrite Hh, Hn, Hc, Hm, Hl.
Qed.

Lemma names_complete_transfer (w w' : World) :
  names (app w') = names (app w) ->
  commands (app w') = commands (app w) ->
  names_complete w -> names_complete w'.
Proof.
  intros Hn Hc. unfold names_complete, Commands, Names. by rewrite Hn, Hc.
Qed.

Lemma catalog_ok_initial (h : gmap loc Command) (v : N) (o : list event) :
  catalog_ok (mkWorld h initialApp v o).
Proof.
  split; [apply ready_initialApp |].
  unfold max_ok, names_ok, keys_ok, entries_ok, modules_ok, Names,
    Commands, ModuleCommands. cbn.
  split; [split; [done | by left] |].
  split; [intros k v' H; by rewrite lookup_empty in H |].
  split; [intros k [c H]; by rewrite lookup_empty in H |].
  split; [intros k c H; by rewrite lookup_empty in H |].
  intros m k c. split.
  - intros (b & H & _). by rewrite lookup_empty in H.
  - intros (_ & H). by rewrite lookup_empty in H.
Qed.

Lemma catalog_ok_Initialize : holds catalog_ok Initialize.
Proof.
  intros w (Hr & Hmax & Hn & Hk & He & Hm).
  destruct (Initialize_frame w)
    as (w' & -> & En & EN & Ec & Em & _ & El & Eh).
  cbn [final]. destruct Hr as (_ & Hrc & Hrm).
  split; [unfold ready; by rewrite En, Ec, Em |].
  unfold max_ok, names_ok, keys_ok, entries_ok, modules_ok, Commands,
    ModuleCommands in *.
  rewrite EN, Ec, Em, El, Eh.
  split; [done |]. split; [| done].
  intros k v H. by rewrite lookup_empty in H.
Qed.

Lemma catalog_ok_aborted (c : loc) (x : Command) (w : World) :
  heap w !! c = Some x -> catalog_ok w -> catalog_ok (aborted c x w).
Proof.
  intros Hx (Hr & Hmax & Hn & Hk & He & Hm).
  split; [done |]. split; [done |]. split; [done |]. split; [done |].
  split; [| done].
  intros k c0 Hc. destruct (He k c0 Hc) as (e & Hh & Hname & Hrest).
  exists e. split; [| done]. unfold aborted. cbn [heap with_heap].
  destruct (decide (c0 = c)) as [-> | Hne].
  - rewrite lookup_insert_eq. rewrite Hx in Hh. injection Hh as ->.
    f_equal. apply trimmed_fixed. rewrite Hname.
    by apply (Hk k); eexists.
  - by rewrite lookup_insert_ne.
Qed.

Lemma catalog_ok_registered (c : loc) (x : Command) (w : World) :
  heap w !! c = Some x ->
  TrimSpace (Cmd.Name x) <> "" ->
  Cmd.Disabled x = false ->
  HasPrefix (TrimSpace (Cmd.Name x)) ":" = false ->
  catalog_ok w -> catalog_ok (registered c x w).
Proof.
  intros Hx Hne Hd Hp (Hr & Hmax & Hn & Hk & He & Hm).
  split; [apply ready_registered |].
  destruct Hr as ([ns Ens] & [cs Ecs] & [ms Ems]).
  unfold max_ok, names_ok, keys_ok, entries_ok, modules_ok, Names,
    Commands, ModuleCommands, registered in *.
  rewrite Ens, Ecs, Ems in *.
  cbn [app heap names commands moduleCommands nameMaxLength default
         from_option id] in *.
  set (name := TrimSpace (Cmd.Name x)) in *.
  set (md := module_of name) in *.
  assert (Hidem : TrimSpace name = name) by apply TrimSpace_idempotent.
  split; [| split; [| split; [| split]]].
  - (* the maximum *)
    destruct Hmax as [H12 Hatt]. split; [lia |].
    destruct (Z.max_spec (nameMaxLength (app w)) (len name))
      as [[Hlt ->] | [Hge ->]].
    + right. exists name. by rewrite lookup_insert_eq.
    + destruct Hatt as [? | (k & Hs & Hl)]; [by left | right].
      exists k. split; [| done]. rewrite lookup_insert.
      by case_decide.
  - (* names *)
    intros k v. rewrite lookup_insert. case_decide as E.
    + subst k. intros [= <-]. by rewrite lookup_insert_eq.
    + intros H. destruct (Hn k v H) as [-> Hs].
      by rewrite lookup_insert_ne.
  - (* keys *)
    intros k. rewrite lookup_insert. case_decide as E.
    + subst k. intros _. repeat split; [done.. | lia].
    + intros H. destruct (Hk k H) as (? & ? & ? & ?).
      repeat split; [done.. | lia].
  - (* entries *)
    intros k c0. rewrite lookup_insert. case_decide as E.
    + subst k. intros [= <-]. eexists.
      split; [apply lookup_insert_eq | done].
    + intros H. destruct (He k c0 H) as (e & Hh & Hname & Hrest).
      exists e. split; [| done]. rewrite lookup_insert_ne; [done |].
      intros <-. rewrite Hx in Hh. injection Hh as ->.
      apply E. unfold name. rewrite Hname.
      by apply (Hk k); eexists.
  - (* modules *)
    intros m k c0. rewrite (lookup_insert cs).
    destruct (decide (name = k)) as [<- | E].
    + split.
      * intros (b & Hb & Hbk). rewrite lookup_insert in Hb.
        case_decide as Em.
        -- injection Hb as <-. rewrite lookup_insert_eq in Hbk. done.
        -- assert (Hold : m = md /\ cs !! name = Some c0).
           { apply Hm. by exists b. }
           by destruct Hold.
      * intros [-> [= <-]]. eexists.
        split; [apply lookup_insert_eq | apply lookup_insert_eq].
    + split.
      * intros (b & Hb & Hbk). rewrite lookup_insert in Hb.
        case_decide as Em.
        -- injection Hb as <-. rewrite lookup_insert_ne in Hbk by done.
           destruct (ms !! md) as [b0|] eqn:Eb;
             cbn [default from_option id] in Hbk;
             [| by rewrite lookup_empty in Hbk].
           apply Hm. exists b0. by subst m.
        -- apply Hm. by exists b.
      * intros Hold. apply Hm in Hold as (b & Hb & Hbk).
        destruct (decide (md = m)) as [<- | Em].
        -- eexists. split; [apply lookup_insert_eq |].
           rewrite lookup_insert_ne by done. by rewrite Hb.
        -- exists b. by rewrite lookup_insert_ne.
Qed.

Lemma catalog_ok_AddCommand (c : loc) : holds catalog_ok (AddCommand c).
Proof.
  intros w H. destruct (heap w !! c) as [x|] eqn:Hx.
  - destruct (AddCommand_cases c w x Hx)
      as [(He & E) | [(Hne & Hd & E) | [(Hne & Hd & Hp & E)
          | [(Hne & Hd & Hp & Hr & E) | (Hne & Hd & Hp & Hr & E)]]]];
      rewrite E; cbn [final].
    + by apply catalog_ok_aborted.
    + apply (catalog_ok_transfer (aborted c x w)); try done.
      by apply catalog_ok_aborted.
    + by apply catalog_ok_aborted.
    + by destruct H.
    + by apply catalog_ok_registered.
  - by rewrite (AddCommand_nil_deref c w Hx).
Qed.

Lemma catalog_ok_run_op (op : catalog_op) : holds catalog_ok (run_op op).
Proof.
  destruct (writes_catalog op) eqn:Hop.
  - destruct op; try discriminate Hop; cbn [run_op].
    + apply catalog_ok_Initialize.
    + unfold Add. apply holds_bind; [apply catalog_ok_AddCommand |].
      intros _. destruct more; [apply holds_ret |].
      apply holds_for_range. intros q.
      apply holds_bind; [apply catalog_ok_AddCommand |].
      intros _. apply holds_ret.
    + apply holds_bind; [apply catalog_ok_AddCommand |].
      intros _. apply holds_ret.
    + intros w H. rewrite AddAliases_eq. cbn [final].
      by apply (catalog_ok_transfer w).
  - intros w H.
    destruct (run_op_same_catalog op w Hop)
      as (w' & -> & Hh & Hn & Hc & Hm & _ & Hl).
    cbn [final]. by apply (catalog_ok_transfer w).
Qed.

Lemma catalog_ok_run_ops (ops : list catalog_op) (w0 : World) :
  catalog_ok (final (run_ops ops (final (NewApp [] w0)))).
Proof.
  apply (holds_for_range catalog_ok ops run_op catalog_ok_run_op).
  rewrite NewApp_eq. apply catalog_ok_initial.
Qed.

Lemma names_complete_AddCommand (c : loc) :
  holds (fun w => catalog_ok w /\ names_complete w) (AddCommand c).
Proof.
  intros w [H Hc]. split; [by apply catalog_ok_AddCommand |].
  destruct (heap w !! c) as [x|] eqn:Hx.
  - destruct (AddCommand_cases c w x Hx)
      as [(He & E) | [(Hne & Hd & E) | [(Hne & Hd & Hp & E)
          | [(Hne & Hd & Hp & Hr & E) | (Hne & Hd & Hp & Hr & E)]]]];
      rewrite E; cbn [final]; try done.
    + by destruct H.
    + destruct Hr as ([ns Ens] & [cs Ecs] & _).
      unfold names_complete, Commands, Names, registered in *.
      rewrite Ens, Ecs in *. cbn in *. intros k.
      rewrite !lookup_insert. case_decide; [by eexists | apply Hc].
  - by rewrite (AddCommand_nil_deref c w Hx).
Qed.

Lemma names_complete_run_op (op : catalog_op) :
  op <> OpInitialize ->
  holds (fun w => catalog_ok w /\ names_complete w) (run_op op).
Proof.
  intros Hop. destruct (writes_catalog op) eqn:Hw.
  - destruct op; try discriminate Hw; cbn [run_op]; [done | ..].
    + unfold Add. apply holds_bind; [apply names_complete_AddCommand |].
      intros _. destruct more; [apply holds_ret |].
      apply holds_for_range. intros q.
      apply holds_bind; [apply names_complete_AddCommand |].
      intros _. apply holds_ret.
    + apply holds_bind; [apply names_complete_AddCommand |].
      intros _. apply holds_ret.
    + intros w [H Hc]. rewrite AddAliases_eq. cbn [final].
      split; [by apply (catalog_ok_transfer w) |].
      by apply (names_complete_transfer w).
  - intros w [H Hc].
    destruct (run_op_same_catalog op w Hw)
      as (w' & -> & Hh & Hn & Hcs & Hm & _ & Hl).
    cbn [final]. split; [by apply (catalog_ok_transfer w) |].
    by apply (names_complete_transfer w).
Qed.

Lemma names_complete_run_ops (ops : list catalog_op) (w0 : World) :
  OpInitialize ∉ ops ->
  names_complete (final (run_ops ops (final (NewApp [] w0)))).
Proof.
  intros Hops.
  assert (H : forall w,
             catalog_ok w /\ names_complete w ->
             (catalog_ok (final (run_ops ops w)) /\
              names_complete (final (run_ops ops w)))).
  { unfold run_ops. induction ops as [|op ops IH]; intros w Hw; [done |].
    cbn [for_range].
    assert (Hop : op <> OpInitialize).
    { intros ->. apply Hops. apply list_elem_of_here. }
    pose proof (names_complete_run_op op Hop w Hw) as H1.
    unfold bind. destruct (run_op op w); cbn [final] in *; [| done..].
    apply IH; [| done].
    intros Hin. apply Hops. by apply list_elem_of_further. }
  apply H. rewrite NewApp_eq. cbn [final].
  split; [apply catalog_ok_initial |].
  intros k [c Hc]. unfold Commands in Hc. cbn in Hc.
  by rewrite lookup_empty in Hc.
Qed.

(** ** The catalog after any run of operations *)

(** X11.  In an application made by [NewApp], after any operations, every
    key of [Commands()] is a non-empty name, trimmed, without a leading
    colon, and no longer than [nameMaxLength]. *)
Theorem command_keys_well_formed (w0 : World) (ops : list catalog_op)
    (k : string) :
  is_Some (Commands (final (run_ops ops (final (NewApp [] w0)))) !! k) ->
  k <> "" /\ TrimSpace k = k /\ HasPrefix k ":" = false /\
  len k <=
  nameMaxLength (app (final (run_ops ops (final (NewApp [] w0))))).
Proof.
  destruct (catalog_ok_run_ops ops w0) as (_ & _ & _ & Hk & _). apply Hk.
Qed.

Lemma command_keys_well_formed_witness :
  "mod:cmd" <> "" /\ TrimSpace "mod:cmd" = "mod:cmd" /\
  HasPrefix "mod:cmd" ":" = false /\
  len "mod:cmd" <=
  nameMaxLength
    (app (final (run_ops [OpAdd 1%positive [2%positive; 7%positive]]
                   (final (NewApp [] (startWorld sampleHeap VerbDebug)))))).
Proof.
  apply (command_keys_well_formed (startWorld sampleHeap VerbDebug)
           [OpAdd 1%positive [2%positive; 7%positive]] "mod:cmd").
  vm_compute. by eexists.
Defined.

(** X12.  In an application made by [NewApp], after any operations, every
    key of [Names()] is a key of [Commands()] and is mapped to its
    length. *)
Theorem Names_within_Commands (w0 : World) (ops : list catalog_op)
    (k : string) (v : Z) :
  Names (final (run_ops ops (final (NewApp [] w0)))) !! k = Some v ->
  v = len k /\
  is_Some (Commands (final (run_ops ops (final (NewApp [] w0)))) !! k).
Proof.
  destruct (catalog_ok_run_ops ops w0) as (_ & _ & Hn & _). apply Hn.
Qed.

Lemma Names_within_Commands_witness :
  7 = len "mod:cmd" /\
  is_Some
    (Commands
       (final (run_ops [OpAdd 1%positive [2%positive; 7%positive]]
                 (final (NewApp [] (startWorld sampleHeap VerbDebug)))))
     !! "mod:cmd").
Proof.
  apply (Names_within_Commands (startWorld sampleHeap VerbDebug)
           [OpAdd 1%positive [2%positive; 7%positive]] "mod:cmd" 7).
  vm_compute. reflexivity.
Defined.

(** X13.  In an application made by [NewApp], after any operations,
    [moduleCommands] is [Commands()] grouped by module: an entry is in the
    bucket of [m] under [k] exactly when [m] is the module of [k] and
    [Commands()] maps [k] to that entry. *)
Theorem moduleCommands_groups_commands (w0 : World)
    (ops : list catalog_op) (m k : string) (c : loc) :
  (exists bucket,
      ModuleCommands (final (run_ops ops (final (NewApp [] w0)))) !! m
        = Some bucket /\
      bucket !! k = Some c) <->
  (m = module_of k /\
   Commands (final (run_ops ops (final (NewApp [] w0)))) !! k = Some c).
Proof.
  destruct (catalog_ok_run_ops ops w0) as (_ & _ & _ & _ & _ & Hm).
  apply Hm.
Qed.

(** X14.  In an application made by [NewApp], after any operations, every
    value of [Commands()] points to an enabled entry whose name is the
    key, whose module is the module of the key, and whose back-reference
    is set. *)
Theorem Commands_entries_attached (w0 : World) (ops : list catalog_op)
    (k : string) (c : loc) :
  Commands (final (run_ops ops (final (NewApp [] w0)))) !! k = Some c ->
  exists e,
    heap (final (run_ops ops (final (NewApp [] w0)))) !! c = Some e /\
    Cmd.Name e = k /\ Cmd.Module_ e = module_of k /\
    Cmd.Disabled e = false /\ Cmd.app e = theApp.
Proof.
  destruct (catalog_ok_run_ops ops w0) as (_ & _ & _ & _ & He & _).
  apply He.
Qed.

Lemma Commands_entries_attached_witness :
  exists e,
    heap (final (run_ops [OpAdd 1%positive [2%positive; 7%positive]]
                   (final (NewApp [] (startWorld sampleHeap VerbDebug)))))
      !! 1%positive = Some e /\
    Cmd.Name e = "mod:cmd" /\ Cmd.Module_ e = module_of "mod:cmd" /\
    Cmd.Disabled e = false /\ Cmd.app e = theApp.
Proof.
  apply (Commands_entries_attached (startWorld sampleHeap VerbDebug)
           [OpAdd 1%positive [2%positive; 7%positive]] "mod:cmd"
           1%positive).
  vm_compute. reflexivity.
Defined.

(** X15.  In an application made by [NewApp], after any operations,
    [nameMaxLength] is 12 or the length of a name in [Commands()]: with
    the bound on the keys, it is the larger of 12 and the longest
    registered name. *)
Theorem nameMaxLength_is_attained (w0 : World) (ops : list catalog_op) :
  12 <= nameMaxLength (app (final (run_ops ops (final (NewApp [] w0)))))
  /\
  (nameMaxLength (app (final (run_ops ops (final (NewApp [] w0))))) = 12
   \/
   exists k,
     is_Some (Commands (final (run_ops ops (final (NewApp [] w0)))) !! k)
     /\
     len k =
     nameMaxLength (app (final (run_ops ops (final (NewApp [] w0)))))).
Proof.
  destruct (catalog_ok_run_ops ops w0) as (_ & Hmax & _). apply Hmax.
Qed.

(** X16.  In an application made by [NewApp], as long as [Initialize] is
    not called again, [Names()] and [Commands()] have the same keys. *)
Theorem Names_and_Commands_same_keys (w0 : World) (ops : list catalog_op) :
  OpInitialize ∉ ops ->
  dom (Names (final (run_ops ops (final (NewApp [] w0))))) =
  dom (Commands (final (run_ops ops (final (NewApp [] w0))))).
Proof.
  intros Hops. apply set_eq. intros k. rewrite !elem_of_dom. split.
  - intros [v Hv].
    destruct (catalog_ok_run_ops ops w0) as (_ & _ & Hn & _).
    by destruct (Hn k v Hv).
  - apply names_complete_run_ops, Hops.
Qed.

Lemma Names_and_Commands_same_keys_witness :
  dom (Names
         (final (run_ops [OpAdd 1%positive [2%positive; 7%positive];
                          OpSetLogo "logo" []]
                   (final (NewApp [] (startWorld sampleHeap VerbDebug))))))
  =
  dom (Commands
         (final (run_ops [OpAdd 1%positive [2%positive; 7%positive];
                          OpSetLogo "logo" []]
                   (final (NewApp [] (startWorld sampleHeap VerbDebug)))))).
Proof.
  apply (Names_and_Commands_same_keys (startWorld sampleHeap VerbDebug)
           [OpAdd 1%positive [2%positive; 7%positive];
            OpSetLogo "logo" []]).
  intros H. repeat (apply elem_of_cons in H as [H | H]; [discriminate H |]).
  by apply elem_of_nil in H.
Defined.

(** ** Edge cases *)

(** X17.  [AddCommand] is not atomic on a catalog whose [commands] map is
    nil while [names] is allocated (a zero [App] after [Initialize]): for
    an acceptable entry it panics after it has written [names], so the
    name is in [Names()] and not in [Commands()]. *)
Theorem AddCommand_writes_names_before_panic (c : loc) (w : World)
    (x : Command) :
  heap w !! c = Some x ->
  TrimSpace (Cmd.Name x) <> "" ->
  Cmd.Disabled x = false ->
  HasPrefix (TrimSpace (Cmd.Name x)) ":" = false ->
  is_Some (names (app w)) ->
  commands (app w) = None ->
  exists w',
    AddCommand c w = Panic nil_map_msg w' /\
    Names w' !! TrimSpace (Cmd.Name x)
      = Some (len (TrimSpace (Cmd.Name x))) /\
    Commands w' !! TrimSpace (Cmd.Name x) = None /\
    nameMaxLength (app w') = nameMaxLength (app w).
Proof.
  intros Hx Hne Hd Hp [ns Hn] Hc. exists (panicked c x w). split.
  - apply AddCommand_nil_map; try done.
    intros (_ & [cs Hcs] & _). congruence.
  - unfold panicked, Names, Commands. rewrite Hn, Hc. cbn.
    by rewrite Hc, lookup_insert_eq.
Qed.

Lemma AddCommand_writes_names_before_panic_witness :
  exists w',
    AddCommand 1%positive
      (final (Initialize (startWorld sampleHeap VerbDebug)))
      = Panic nil_map_msg w' /\
    Names w' !! TrimSpace " mod:cmd " = Some (len (TrimSpace " mod:cmd "))
    /\
    Commands w' !! TrimSpace " mod:cmd " = None /\
    nameMaxLength (app w') =
    nameMaxLength (app (final (Initialize
                                 (startWorld sampleHeap VerbDebug)))).
Proof.
  apply (AddCommand_writes_names_before_panic 1%positive
           (final (Initialize (startWorld sampleHeap VerbDebug)))
           (entry " mod:cmd " ["m"; "mc"] false)).
  - reflexivity.
  - vm_compute. discriminate.
  - reflexivity.
  - reflexivity.
  - by eexists.
  - reflexivity.
Defined.

(** X18.  [AddError] keeps the errors recorded before and appends the
    new ones in the order of the calls; it always returns and does not
    touch the catalog. *)
Theorem AddError_accumulates (errs : list string) (w : World) :
  exists w',
    run_ops (map OpAddError errs) w = Ok tt w' /\
    errors (app w') = (errors (app w) ++ errs)%list /\
    same_catalog w w'.
Proof.
  unfold run_ops. revert w. induction errs as [|err errs IH]; intros w.
  - exists w. split; [done |]. split; [by rewrite app_nil_r |].
    apply same_catalog_refl.
  - cbn [map for_range run_op]. unfold AddError at 1.
    rewrite bind_modifyApp.
    destruct (IH (with_app (set_errors (errors (app w) ++ [err]) (app w))
                    w)) as (w' & -> & He & Hs).
    exists w'. split; [done |]. split; [| exact Hs].
    rewrite He. cbn. by rewrite <- app_assoc.
Qed.
